(** * SovSeal guardian-weighted threshold recovery

    Shallow embedding of
    - [src/packages/contracts/src/SovSealRecovery.sol] (module [SovSealRecovery]),
    - [src/unnamed/part_011] (RecoveryOrchestrator, module [Orchestrator]),
    - [src/lib/recovery/ShamirService.ts] (module [ShamirService]). *)

From Stdlib Require Import ZArith List Bool String Ascii Lia.
Import ListNotations.
Open Scope Z_scope.

(* ================================================================= *)
(** ** The ledger contract [SovSealRecovery] *)

Module SovSealRecovery.

(** Addresses and [uint256] values are integers; a Solidity [mapping] is a
    total function returning the zero value for absent keys. *)
Definition address := Z.

Definition RECOVERY_DELAY : Z := 7 * 24 * 60 * 60.
Definition MIN_THRESHOLD : Z := 2.
Definition MAX_GUARDIANS : Z := 10.
Definition UINT256_BOUND : Z := 2 ^ 256.
Definition ADDRESS_BOUND : Z := 2 ^ 160.

Record Guardian := mkGuardian {
  addr : address;
  weight : Z;
  isActive : bool
}.

Record RecoveryRequest := mkRequest {
  req_owner : address;
  req_newOwner : address;
  req_threshold : Z;
  req_approvalWeight : Z;
  req_initiatedAt : Z;
  req_executeAfter : Z;
  req_executed : bool;
  req_cancelled : bool;
  req_hasApproved : address -> bool
}.

(** The zero value of a [RecoveryRequest] storage slot. *)
Definition empty_request : RecoveryRequest :=
  mkRequest 0 0 0 0 0 0 false false (fun _ => false).

Record State := mkState {
  guardians : address -> list Guardian;
  thresholds : address -> Z;
  recoveryRequests : Z -> RecoveryRequest;
  recoveryCount : Z;
  activeRecovery : address -> Z
}.

Definition init_state : State :=
  mkState (fun _ => []) (fun _ => 0) (fun _ => empty_request) 0 (fun _ => 0).

(** Transaction context: [msg.sender] and [block.timestamp]. *)
Record Env := mkEnv { msg_sender : address; block_timestamp : Z }.

Inductive Error :=
| NotOwner | NotGuardian | InvalidAddress | InvalidThreshold
| GuardianAlreadyExists | GuardianNotFound | MaxGuardiansReached
| NoActiveRecovery | RecoveryAlreadyActive | RecoveryNotReady
| RecoveryAlreadyApproved | RecoveryAlreadyExecuted | RecoveryAlreadyCancelled
| TimeLockNotExpired | ThresholdNotMet
| Panic_Overflow  (** checked arithmetic of Solidity >= 0.8 (panic 0x11) *)
| OutOfGas.       (** a loop that never ends exhausts the gas *)

(** A call either returns or reverts; a revert discards every write. *)
Inductive res (A : Type) := Ok (a : A) | Revert (e : Error).
Arguments Ok {A} a.
Arguments Revert {A} e.

Definition bind {A B} (m : res A) (k : A -> res B) : res B :=
  match m with Ok a => k a | Revert e => Revert e end.
Notation "x <- m ;; k" := (bind m (fun x => k))
  (at level 61, m at next level, right associativity).

(** [a + b] on [uint256]. *)
Definition checked_add (a b : Z) : res Z :=
  if a + b <? UINT256_BOUND then Ok (a + b) else Revert Panic_Overflow.

Definition upd {A} (f : Z -> A) (k : Z) (v : A) : Z -> A :=
  fun x => if Z.eqb x k then v else f x.

Definition set_guardians (st : State) (o : address) (l : list Guardian) : State :=
  mkState (upd (guardians st) o l) (thresholds st) (recoveryRequests st)
          (recoveryCount st) (activeRecovery st).
Definition set_threshold (st : State) (o : address) (k : Z) : State :=
  mkState (guardians st) (upd (thresholds st) o k) (recoveryRequests st)
          (recoveryCount st) (activeRecovery st).
Definition set_request (st : State) (id : Z) (r : RecoveryRequest) : State :=
  mkState (guardians st) (thresholds st) (upd (recoveryRequests st) id r)
          (recoveryCount st) (activeRecovery st).
Definition set_count (st : State) (n : Z) : State :=
  mkState (guardians st) (thresholds st) (recoveryRequests st) n (activeRecovery st).
Definition set_active (st : State) (o : address) (id : Z) : State :=
  mkState (guardians st) (thresholds st) (recoveryRequests st)
          (recoveryCount st) (upd (activeRecovery st) o id).

Definition len (l : list Guardian) : Z := Z.of_nat (List.length l).

(** [ownerGuardians[i].addr == guardian && ownerGuardians[i].isActive] *)
Definition matches (guardian : address) (g : Guardian) : bool :=
  (addr g =? guardian) && isActive g.

(** ** Guardian management *)

Definition addGuardian (env : Env) (guardian weight : Z) (st : State) : res State :=
  let sender := msg_sender env in
  if guardian =? 0 then Revert InvalidAddress                       (* validAddress *)
  else if guardian =? sender then Revert InvalidAddress
  else if MAX_GUARDIANS <=? len (guardians st sender) then Revert MaxGuardiansReached
  else if weight =? 0 then Revert InvalidThreshold
  else if existsb (matches guardian) (guardians st sender) then Revert GuardianAlreadyExists
  else Ok (set_guardians st sender
             (guardians st sender ++ [mkGuardian guardian weight true])).

(** The [for] loop of [removeGuardian]: deactivates the first active entry
    for [guardian] and [break]s; the boolean is [found]. *)
Fixpoint deactivate_first (guardian : address) (l : list Guardian)
  : list Guardian * bool :=
  match l with
  | [] => ([], false)
  | g :: t =>
      if matches guardian g then (mkGuardian (addr g) (weight g) false :: t, true)
      else let (t', found) := deactivate_first guardian t in (g :: t', found)
  end.

Definition removeGuardian (env : Env) (guardian : address) (st : State) : res State :=
  let sender := msg_sender env in
  let (l', found) := deactivate_first guardian (guardians st sender) in
  if negb found then Revert GuardianNotFound
  else Ok (set_guardians st sender l').

(** The loop of [_getTotalGuardianWeight], [total += weight] checked. *)
Fixpoint total_weight_loop (total : Z) (l : list Guardian) : res Z :=
  match l with
  | [] => Ok total
  | g :: t =>
      if isActive g then (s <- checked_add total (weight g) ;; total_weight_loop s t)
      else total_weight_loop total t
  end.

Definition _getTotalGuardianWeight (st : State) (o : address) : res Z :=
  total_weight_loop 0 (guardians st o).

Definition setThreshold (env : Env) (newThreshold : Z) (st : State) : res State :=
  let sender := msg_sender env in
  if newThreshold <? MIN_THRESHOLD then Revert InvalidThreshold
  else (totalWeight <- _getTotalGuardianWeight st sender ;;
        if totalWeight <? newThreshold then Revert InvalidThreshold
        else Ok (set_threshold st sender newThreshold)).

(** [getGuardians]: the active entries, in storage order. *)
Definition getGuardians (st : State) (o : address) : list Guardian :=
  filter isActive (guardians st o).

Definition _isGuardian (st : State) (o guardian : address) : bool :=
  existsb (matches guardian) (guardians st o).

Fixpoint guardian_weight_loop (guardian : address) (l : list Guardian) : Z :=
  match l with
  | [] => 0
  | g :: t => if matches guardian g then weight g else guardian_weight_loop guardian t
  end.

Definition _getGuardianWeight (st : State) (o guardian : address) : Z :=
  guardian_weight_loop guardian (guardians st o).

(** ** Recovery flow *)

Definition with_approval (r : RecoveryRequest) (guardian : address) (aw : Z)
  : RecoveryRequest :=
  mkRequest (req_owner r) (req_newOwner r) (req_threshold r) aw
    (req_initiatedAt r) (req_executeAfter r) (req_executed r) (req_cancelled r)
    (upd (req_hasApproved r) guardian true).

Definition with_executed (r : RecoveryRequest) : RecoveryRequest :=
  mkRequest (req_owner r) (req_newOwner r) (req_threshold r) (req_approvalWeight r)
    (req_initiatedAt r) (req_executeAfter r) true (req_cancelled r) (req_hasApproved r).

Definition with_cancelled (r : RecoveryRequest) : RecoveryRequest :=
  mkRequest (req_owner r) (req_newOwner r) (req_threshold r) (req_approvalWeight r)
    (req_initiatedAt r) (req_executeAfter r) (req_executed r) true (req_hasApproved r).

(** Returns the new state and [requestId].  The fields are written into the
    storage slot [recoveryRequests[requestId]]; its [hasApproved] mapping is
    not reset by the source and is kept. *)
Definition initiateRecovery (env : Env) (owner newOwner : address) (st : State)
  : res (State * Z) :=
  if owner =? 0 then Revert InvalidAddress                  (* validAddress(owner) *)
  else if newOwner =? 0 then Revert InvalidAddress          (* validAddress(newOwner) *)
  else if owner =? newOwner then Revert InvalidAddress
  else if negb (activeRecovery st owner =? 0) then Revert RecoveryAlreadyActive
  else if negb (_isGuardian st owner (msg_sender env)) then Revert NotGuardian
  else
    let threshold := thresholds st owner in
    if threshold <? MIN_THRESHOLD then Revert InvalidThreshold
    else
      (requestId <- checked_add (recoveryCount st) 1 ;;
       executeAfter <- checked_add (block_timestamp env) RECOVERY_DELAY ;;
       let slot := recoveryRequests st requestId in
       let request := mkRequest owner newOwner threshold 0 (block_timestamp env)
                        executeAfter false false (req_hasApproved slot) in
       let st1 := set_request (set_count st requestId) requestId request in
       Ok (set_active st1 owner requestId, requestId)).

Definition approveRecovery (env : Env) (requestId : Z) (st : State) : res State :=
  let sender := msg_sender env in
  let request := recoveryRequests st requestId in
  if req_owner request =? 0 then Revert NoActiveRecovery
  else if req_executed request then Revert RecoveryAlreadyExecuted
  else if req_cancelled request then Revert RecoveryAlreadyCancelled
  else if req_hasApproved request sender then Revert RecoveryAlreadyApproved
  else if negb (_isGuardian st (req_owner request) sender) then Revert NotGuardian
  else
    let w := _getGuardianWeight st (req_owner request) sender in
    (aw <- checked_add (req_approvalWeight request) w ;;
     Ok (set_request st requestId (with_approval request sender aw))).

(** The copy loop of [executeRecovery]: every active entry of
    [guardians[owner]] is pushed onto [guardians[newOwner]].  The loop bound
    [oldGuardians.length] is re-read at each iteration; when [owner] and
    [newOwner] are the same account and an active entry exists, every push
    lengthens the list being walked and the loop runs out of gas. *)
Definition transplant (st : State) (owner newOwner : address) : res State :=
  if (owner =? newOwner) && existsb isActive (guardians st owner) then Revert OutOfGas
  else
    let st1 := set_guardians st newOwner
                 (guardians st newOwner ++ filter isActive (guardians st owner)) in
    Ok (set_threshold st1 newOwner (thresholds st1 owner)).

Definition executeRecovery (env : Env) (requestId : Z) (st : State) : res State :=
  let request := recoveryRequests st requestId in
  if req_owner request =? 0 then Revert NoActiveRecovery
  else if req_executed request then Revert RecoveryAlreadyExecuted
  else if req_cancelled request then Revert RecoveryAlreadyCancelled
  else if block_timestamp env <? req_executeAfter request then Revert TimeLockNotExpired
  else if req_approvalWeight request <? req_threshold request then Revert ThresholdNotMet
  else
    let st1 := set_request st requestId (with_executed request) in
    let st2 := set_active st1 (req_owner request) 0 in
    transplant st2 (req_owner request) (req_newOwner request).

Definition cancelRecovery (env : Env) (requestId : Z) (st : State) : res State :=
  let sender := msg_sender env in
  let request := recoveryRequests st requestId in
  if req_owner request =? 0 then Revert NoActiveRecovery
  else if req_executed request then Revert RecoveryAlreadyExecuted
  else if req_cancelled request then Revert RecoveryAlreadyCancelled
  else
    let isOwner := sender =? req_owner request in
    let isGuardian := _isGuardian st (req_owner request) sender in
    if negb isOwner && negb isGuardian then Revert NotGuardian
    else Ok (set_active (set_request st requestId (with_cancelled request))
                        (req_owner request) 0).

(** ** Transactions *)

Inductive Call :=
| CAddGuardian (guardian weight : Z)
| CRemoveGuardian (guardian : address)
| CSetThreshold (newThreshold : Z)
| CInitiateRecovery (owner newOwner : address)
| CApproveRecovery (requestId : Z)
| CExecuteRecovery (requestId : Z)
| CCancelRecovery (requestId : Z).

Definition step (env : Env) (c : Call) (st : State) : res State :=
  match c with
  | CAddGuardian g w => addGuardian env g w st
  | CRemoveGuardian g => removeGuardian env g st
  | CSetThreshold k => setThreshold env k st
  | CInitiateRecovery o n => bind (initiateRecovery env o n st) (fun p => Ok (fst p))
  | CApproveRecovery id => approveRecovery env id st
  | CExecuteRecovery id => executeRecovery env id st
  | CCancelRecovery id => cancelRecovery env id st
  end.

Definition is_uint256 (z : Z) : bool := (0 <=? z) && (z <? UINT256_BOUND).
Definition is_address (z : Z) : bool := (0 <=? z) && (z <? ADDRESS_BOUND).

(** Calldata decodes to in-range values. *)
Definition valid_call (env : Env) (c : Call) : bool :=
  is_address (msg_sender env) && is_uint256 (block_timestamp env) &&
  match c with
  | CAddGuardian g w => is_address g && is_uint256 w
  | CRemoveGuardian g => is_address g
  | CSetThreshold k => is_uint256 k
  | CInitiateRecovery o n => is_address o && is_address n
  | CApproveRecovery id | CExecuteRecovery id | CCancelRecovery id => is_uint256 id
  end.

(** One committed transaction; reverted transactions leave the state as is. *)
Inductive tx : State -> State -> Prop :=
| tx_ok env c st st' :
    valid_call env c = true -> step env c st = Ok st' -> tx st st'.

(** States reachable from deployment. *)
Inductive reachable : State -> Prop :=
| reach_init : reachable init_state
| reach_tx st st' : reachable st -> tx st st' -> reachable st'.

(** Zero or more committed transactions. *)
Inductive txs : State -> State -> Prop :=
| txs_refl st : txs st st
| txs_step st st' st'' : tx st st' -> txs st' st'' -> txs st st''.

(** A request slot holds a live (not executed, not cancelled) request. *)
Definition active (r : RecoveryRequest) : bool :=
  negb (req_owner r =? 0) && negb (req_executed r) && negb (req_cancelled r).

(** Runs a sequence of transactions, stopping at the first revert. *)
Definition run (st : State) (l : list (Env * Call)) : res State :=
  fold_left (fun acc ec => bind acc (step (fst ec) (snd ec))) l (Ok st).

(** Sum of the active weights, in unbounded arithmetic. *)
Fixpoint sum_active (l : list Guardian) : Z :=
  match l with
  | [] => 0
  | g :: t => (if isActive g then weight g else 0) + sum_active t
  end.

(** No two active entries share an address. *)
Fixpoint nodup_active (l : list Guardian) : bool :=
  match l with
  | [] => true
  | g :: t => (negb (isActive g) || negb (existsb (matches (addr g)) t)) && nodup_active t
  end.

(** ** [getGuardians] as written: two loops over storage *)

(** The counting loop, [if (isActive) activeCount++]; the counters are
    bounded by the array length and never reach [2^256]. *)
Fixpoint activeCount_loop (l : list Guardian) (activeCount : nat) : nat :=
  match l with
  | [] => activeCount
  | g :: t => activeCount_loop t (if isActive g then S activeCount else activeCount)
  end.

(** [result[index] = g] on a memory array; an index out of range panics
    ([None]). *)
Fixpoint store_at (result : list Guardian) (index : nat) (g : Guardian)
  : option (list Guardian) :=
  match result, index with
  | [], _ => None
  | _ :: t, O => Some (g :: t)
  | x :: t, S i => option_map (cons x) (store_at t i g)
  end.

(** The copying loop, [if (isActive) { result[index] = g; index++; }]. *)
Fixpoint fill_loop (l : list Guardian) (result : list Guardian) (index : nat)
  : option (list Guardian) :=
  match l with
  | [] => Some result
  | g :: t =>
      if isActive g then
        match store_at result index g with
        | Some result' => fill_loop t result' (S index)
        | None => None
        end
      else fill_loop t result index
  end.

(** The zero value of a [Guardian] in [new Guardian[](activeCount)]. *)
Definition zero_guardian : Guardian := mkGuardian 0 0 false.

Definition getGuardians_loops (st : State) (owner : address) : option (list Guardian) :=
  let ownerGuardians := guardians st owner in
  let activeCount := activeCount_loop ownerGuardians 0 in
  let result := repeat zero_guardian activeCount in
  fill_loop ownerGuardians result 0.

End SovSealRecovery.

(* ================================================================= *)
(** ** [ShamirService]: the wrapper around [shamir-secret-sharing] *)

Module ShamirService.

Definition DEFAULT_THRESHOLD : Z := 3.
Definition DEFAULT_TOTAL_SHARES : Z := 5.
Definition MIN_THRESHOLD : Z := 2.
Definition MAX_SHARES : Z := 255.

(** A [Uint8Array]. *)
Definition bytes := list Byte.byte.

Definition byte_val (b : Byte.byte) : Z := Z.of_N (Byte.to_N b).

(** What a call into the external library does: return or throw. *)
Inductive outcome (A : Type) := Done (a : A) | Thrown (message : string).
Arguments Done {A} a.
Arguments Thrown {A} message.

(** The [Error]s thrown by the service, by message. *)
Inductive ShamirError :=
| SecretEmpty                    (** "Secret cannot be empty" *)
| ThresholdTooSmall              (** "Threshold must be at least 2" *)
| TooManyShares                  (** "Cannot create more than 255 shares" *)
| ThresholdExceedsTotal (threshold totalShares : Z)
| SplitFailed (message : string) (** "Failed to split secret: ..." *)
| NoSharesProvided               (** "No shares provided for reconstruction" *)
| TooFewShares (got : Z)         (** "At least 2 shares required, got ..." *)
| InvalidShareFormat (index : Z) (** "Invalid share format at index ..." *)
| ReconstructFailed (message : string). (** "Failed to reconstruct secret: ..." *)

Inductive result (A : Type) := ROk (a : A) | RErr (e : ShamirError).
Arguments ROk {A} a.
Arguments RErr {A} e.

Record SplitResult := mkSplitResult {
  shares : list bytes;
  sr_threshold : Z;
  sr_totalShares : Z
}.

(** The errors of [validateSplitParams]: the service's invalid-input errors. *)
Definition invalid_input (e : ShamirError) : bool :=
  match e with
  | SecretEmpty | ThresholdTooSmall | TooManyShares | ThresholdExceedsTotal _ _ => true
  | _ => false
  end.

(** [threshold] and [totalShares] are integer-valued [number]s. *)
Definition validateSplitParams (secret : bytes) (threshold totalShares : Z)
  : option ShamirError :=
  if Nat.eqb (List.length secret) 0 then Some SecretEmpty
  else if threshold <? MIN_THRESHOLD then Some ThresholdTooSmall
  else if MAX_SHARES <? totalShares then Some TooManyShares
  else if totalShares <? threshold then Some (ThresholdExceedsTotal threshold totalShares)
  else None.

Section WithLibrary.

(** [split(secret, shares, threshold)] and [combine(shares)] of the external
    [shamir-secret-sharing] package, whose code is not part of this
    repository: any functions. *)
Variable split : bytes -> Z -> Z -> outcome (list bytes).
Variable combine : list bytes -> outcome bytes.

Definition splitSecret (secret : bytes) (threshold totalShares : Z)
  : result SplitResult :=
  match validateSplitParams secret threshold totalShares with
  | Some e => RErr e
  | None =>
      match split secret totalShares threshold with
      | Done shs => ROk (mkSplitResult shs threshold totalShares)
      | Thrown m => RErr (SplitFailed m)
      end
  end.

Definition isValidShare (share : bytes) : bool :=
  match share with
  | [] | [_] => false
  | index :: _ => negb ((byte_val index <? 1) || (MAX_SHARES <? byte_val index))
  end.

(** The validation loop: the position of the first invalid share. *)
Fixpoint first_invalid (i : Z) (l : list bytes) : option Z :=
  match l with
  | [] => None
  | s :: t => if isValidShare s then first_invalid (i + 1) t else Some i
  end.

Definition combineShares (shs : list bytes) : result bytes :=
  if Nat.eqb (List.length shs) 0 then RErr NoSharesProvided
  else if Z.of_nat (List.length shs) <? MIN_THRESHOLD
  then RErr (TooFewShares (Z.of_nat (List.length shs)))
  else match first_invalid 0 shs with
       | Some i => RErr (InvalidShareFormat i)
       | None =>
           match combine shs with
           | Done secret => ROk secret
           | Thrown m => RErr (ReconstructFailed m)
           end
       end.

End WithLibrary.

(** [getShareIndex]: [share[0]] of a valid share (a valid share is never
    empty, so the second branch is not taken). *)
Definition getShareIndex (share : bytes) : outcome Z :=
  if negb (isValidShare share) then Thrown "Invalid share format"
  else match share with
       | index :: _ => Done (byte_val index)
       | [] => Thrown "Invalid share format"
       end.

End ShamirService.

(* ================================================================= *)
(** ** [RecoveryOrchestrator] (off-ledger sessions in [localStorage]) *)

Module Orchestrator.
Import ShamirService.

Definition RECOVERY_DELAY_MS : Z := 7 * 24 * 60 * 60 * 1000.

Inductive RecoveryStatus :=
| pending | collecting | ready | executable | executed | cancelled.

Definition status_eqb (a b : RecoveryStatus) : bool :=
  match a, b with
  | pending, pending | collecting, collecting | ready, ready
  | executable, executable | executed, executed | cancelled, cancelled => true
  | _, _ => false
  end.

Definition status_string (s : RecoveryStatus) : string :=
  match s with
  | pending => "pending" | collecting => "collecting" | ready => "ready"
  | executable => "executable" | executed => "executed" | cancelled => "cancelled"
  end.

(** [onChainRequestId] is never written by the orchestrator and is left out. *)
Record RecoverySession := mkSession {
  id : string;
  userAddress : string;
  newOwnerAddress : string;
  status : RecoveryStatus;
  threshold : Z;
  collectedShares : list string;
  initiatedAt : Z;
  executeAfter : Z;
  executedAt : option Z;
  cancelledAt : option Z
}.

Definition with_status (s : RecoverySession) (st : RecoveryStatus) : RecoverySession :=
  mkSession (id s) (userAddress s) (newOwnerAddress s) st (threshold s)
    (collectedShares s) (initiatedAt s) (executeAfter s) (executedAt s) (cancelledAt s).

(** [String.prototype.toLowerCase] on ASCII text (addresses are hex). *)
Definition lower_ascii (c : ascii) : ascii :=
  let n := nat_of_ascii c in
  if (65 <=? n)%nat && (n <=? 90)%nat then ascii_of_nat (n + 32) else c.

Fixpoint toLowerCase (s : string) : string :=
  match s with
  | EmptyString => EmptyString
  | String c t => String (lower_ascii c) (toLowerCase t)
  end.

(** The browser store: the JSON array under [sovseal_recovery_sessions], and
    for each session id the object under [sovseal_shares_<id>], as its
    (guardian id, encoded share) entries in property order. *)
Record Store := mkStore {
  sessions : list RecoverySession;
  submitted : string -> list (string * string)
}.

Definition empty_store : Store := mkStore [] (fun _ => []).

(** The answers of [GuardianManager] (not part of [src/]) during one call. *)
Record GuardianInfo := mkGuardianInfo { g_id : string; g_address : string }.
Record GM := mkGM {
  isRecoveryConfigured : string -> bool;
  getRecoveryConfig : string -> outcome Z;   (** [config.threshold] *)
  getGuardians : string -> list GuardianInfo
}.

(** A call to the orchestrator returns or throws an [Error] with a message. *)
Inductive oresult (A : Type) := OOk (a : A) | OThrow (message : string).
Arguments OOk {A} a.
Arguments OThrow {A} message.

Definition is_terminal (s : RecoveryStatus) : bool :=
  status_eqb s executed || status_eqb s cancelled.

Definition getSession (sessionId : string) (st : Store) : option RecoverySession :=
  find (fun s => String.eqb (id s) sessionId) (sessions st).

Definition getActiveSession (user : string) (st : Store) : option RecoverySession :=
  find (fun s => String.eqb (toLowerCase (userAddress s)) (toLowerCase user)
                 && negb (is_terminal (status s)))
       (sessions st).

(** [sessions[findIndex(s => s.id === session.id)] = session], [None] when
    the index is [-1]. *)
Fixpoint replace_first (session : RecoverySession) (l : list RecoverySession)
  : option (list RecoverySession) :=
  match l with
  | [] => None
  | s :: t =>
      if String.eqb (id s) (id session) then Some (session :: t)
      else option_map (cons s) (replace_first session t)
  end.

Definition saveSession (session : RecoverySession) (st : Store) : Store :=
  let l := match replace_first session (sessions st) with
           | Some l' => l'
           | None => sessions st ++ [session]
           end in
  mkStore l (submitted st).

(** [shares[guardianId] = encryptedShare] on a JS object. *)
Fixpoint set_prop (k v : string) (l : list (string * string)) : list (string * string) :=
  match l with
  | [] => [(k, v)]
  | (k', v') :: t => if String.eqb k' k then (k, v) :: t else (k', v') :: set_prop k v t
  end.

Definition storeSubmittedShare (sessionId guardianId encryptedShare : string) (st : Store)
  : Store :=
  mkStore (sessions st)
    (fun sid => if String.eqb sid sessionId
                then set_prop guardianId encryptedShare (submitted st sid)
                else submitted st sid).

Section WithCollaborators.

(** [GuardianManager]'s answers, [Date.now()], [crypto.randomUUID()], the
    library [combine] and [Buffer]'s base64 decoding, for one call. *)
Variable gm : GM.
Variable now : Z.
Variable combine : list bytes -> outcome bytes.
Variable decodeShare : string -> bytes.

Definition initiateRecovery (newId user newOwner : string) (st : Store)
  : oresult (Store * RecoverySession) :=
  if String.eqb user EmptyString || String.eqb newOwner EmptyString then
    OThrow "Both user and new owner addresses are required"
  else if String.eqb (toLowerCase user) (toLowerCase newOwner) then
    OThrow "New owner cannot be the same as current owner"
  else if negb (isRecoveryConfigured gm user) then
    OThrow "Recovery not configured - need at least threshold guardians"
  else match getRecoveryConfig gm user with
  | Thrown m => OThrow m
  | Done th =>
      match getActiveSession user st with
      | Some _ => OThrow "Recovery already in progress. Cancel existing session first."
      | None =>
          let session := mkSession newId (toLowerCase user) (toLowerCase newOwner)
                           pending th [] now (now + RECOVERY_DELAY_MS) None None in
          OOk (saveSession session st, session)
      end
  end.

Definition submitShare (sessionId guardianAddress encryptedShare : string) (st : Store)
  : oresult Store :=
  match getSession sessionId st with
  | None => OThrow "Recovery session not found"
  | Some session =>
      if is_terminal (status session) then
        OThrow ("Recovery session is " ++ status_string (status session))
      else
        let guardians := getGuardians gm (userAddress session) in
        match find (fun g => String.eqb (toLowerCase (g_address g))
                                        (toLowerCase guardianAddress)) guardians with
        | None => OThrow "Not an authorized guardian"
        | Some g =>
            if existsb (String.eqb (g_id g)) (collectedShares session) then
              OThrow "Share already submitted"
            else
              let cs := collectedShares session ++ [g_id g] in
              let st1 := storeSubmittedShare sessionId (g_id g) encryptedShare st in
              let status' := if threshold session <=? Z.of_nat (List.length cs)
                             then ready else collecting in
              OOk (saveSession
                     (mkSession (id session) (userAddress session)
                        (newOwnerAddress session) status' (threshold session) cs
                        (initiatedAt session) (executeAfter session)
                        (executedAt session) (cancelledAt session)) st1)
        end
  end.

Definition checkReadiness (sessionId : string) (st : Store) : bool * Store :=
  match getSession sessionId st with
  | None => (false, st)
  | Some session =>
      let thresholdMet := threshold session <=? Z.of_nat (List.length (collectedShares session)) in
      let timeLockExpired := executeAfter session <=? now in
      if thresholdMet && timeLockExpired && status_eqb (status session) ready then
        (true, saveSession (with_status session executable) st)
      else (status_eqb (status session) executable, st)
  end.

Inductive ExecError :=
| SessionNotFound                 (** "Recovery session not found" *)
| NeedShares (threshold have : Z) (** "Need ... shares, have ..." *)
| TimeLockNotExpired (hours : Z)  (** "Time-lock not expired. ... hours remaining." *)
| Failed (e : ShamirError).       (** the message of the caught [Error] *)

Inductive RecoveryResult :=
| RecoverySuccess (reconstructedSecret : bytes)
| RecoveryFailure (error : ExecError).

Definition getSubmittedShares (sessionId : string) (st : Store) : list bytes :=
  map (fun kv => decodeShare (snd kv)) (submitted st sessionId).

(** The source reads [Date.now()] three times: [now] for the time-lock
    check, [nowRemaining] for [remaining] on the next line, and
    [nowExecuted] for [executedAt], after the awaits on the shares and
    [combine]. *)
Definition executeRecovery (nowRemaining nowExecuted : Z) (sessionId : string) (st : Store)
  : RecoveryResult * Store :=
  match getSession sessionId st with
  | None => (RecoveryFailure SessionNotFound, st)
  | Some session =>
      let have := Z.of_nat (List.length (collectedShares session)) in
      if have <? threshold session then
        (RecoveryFailure (NeedShares (threshold session) have), st)
      else if now <? executeAfter session then
        let remaining := executeAfter session - nowRemaining in
        (RecoveryFailure (TimeLockNotExpired ((remaining + 3599999) / 3600000)), st)
      else
        match combineShares combine (getSubmittedShares sessionId st) with
        | RErr e => (RecoveryFailure (Failed e), st)
        | ROk secret =>
            let session' :=
              mkSession (id session) (userAddress session) (newOwnerAddress session)
                executed (threshold session) (collectedShares session)
                (initiatedAt session) (executeAfter session) (Some nowExecuted)
                (cancelledAt session) in
            (RecoverySuccess secret, saveSession session' st)
        end
  end.

Definition cancelRecovery (sessionId cancellerAddress : string) (st : Store)
  : oresult Store :=
  match getSession sessionId st with
  | None => OThrow "Recovery session not found"
  | Some session =>
      if status_eqb (status session) executed then OThrow "Cannot cancel executed recovery"
      else if status_eqb (status session) cancelled then OThrow "Recovery already cancelled"
      else
        let isOwner := String.eqb (toLowerCase cancellerAddress)
                                  (toLowerCase (userAddress session)) in
        let isGuardian := existsb (fun g => String.eqb (toLowerCase (g_address g))
                                                       (toLowerCase cancellerAddress))
                                  (getGuardians gm (userAddress session)) in
        if negb isOwner && negb isGuardian then OThrow "Not authorized to cancel recovery"
        else
          let session' :=
            mkSession (id session) (userAddress session) (newOwnerAddress session)
              cancelled (threshold session) (collectedShares session)
              (initiatedAt session) (executeAfter session) (executedAt session)
              (Some now) in
          OOk (saveSession session' st)
  end.

(** [getTimeRemaining]: [Math.max(0, session.executeAfter - Date.now())]. *)
Definition getTimeRemaining (sessionId : string) (st : Store) : Z :=
  match getSession sessionId st with
  | None => 0
  | Some session => Z.max 0 (executeAfter session - now)
  end.

End WithCollaborators.

(** The calls that write the store, run one at a time. *)
Inductive Op :=
| OpInitiate (newId user newOwner : string)
| OpSubmit (sessionId guardianAddress encryptedShare : string)
| OpCheck (sessionId : string)
| OpExecute (sessionId : string) (nowRemaining nowExecuted : Z)
    (** with the call's second and third [Date.now()] reads *)
| OpCancel (sessionId cancellerAddress : string).

Definition ostep (gm : GM) (now : Z) (combine : list bytes -> outcome bytes)
  (decodeShare : string -> bytes) (o : Op) (st : Store) : Store :=
  match o with
  | OpInitiate nid u n =>
      match initiateRecovery gm now nid u n st with OOk (st', _) => st' | OThrow _ => st end
  | OpSubmit sid g e =>
      match submitShare gm sid g e st with OOk st' => st' | OThrow _ => st end
  | OpCheck sid => snd (checkReadiness now sid st)
  | OpExecute sid t2 t3 => snd (executeRecovery now combine decodeShare t2 t3 sid st)
  | OpCancel sid c =>
      match cancelRecovery gm now sid c st with OOk st' => st' | OThrow _ => st end
  end.

Inductive oreachable : Store -> Prop :=
| oreach_init : oreachable empty_store
| oreach_step gm now combine decodeShare o st :
    oreachable st -> oreachable (ostep gm now combine decodeShare o st).

(** Sessions of the owner with lower-cased address [k] that are not terminal. *)
Definition active_for (k : string) (s : RecoverySession) : bool :=
  String.eqb (toLowerCase (userAddress s)) k && negb (is_terminal (status s)).

Definition count_active (k : string) (l : list RecoverySession) : nat :=
  List.length (filter (active_for k) l).

End Orchestrator.

(* ================================================================= *)
(** ** Concrete runs *)

Module LedgerScenarios.
Import SovSealRecovery.

Definition O : address := 1.
Definition G1 : address := 11.
Definition G2 : address := 12.
Definition G3 : address := 13.
Definition NA : address := 20.
Definition G_NA : address := 30.

Definition at_ (sender : address) (t : Z) : Env := mkEnv sender t.

Definition unwrap (r : res State) : State :=
  match r with Ok s => s | Revert _ => init_state end.

(** The end-to-end scenario: three guardians of weight 1, threshold 2,
    [G1] initiates a recovery to [NA], [G1] and [G2] approve. *)
Definition setup : list (Env * Call) :=
  [(at_ O 0, CAddGuardian G1 1); (at_ O 0, CAddGuardian G2 1);
   (at_ O 0, CAddGuardian G3 1); (at_ O 0, CSetThreshold 2);
   (at_ G1 100, CInitiateRecovery O NA);
   (at_ G1 100, CApproveRecovery 1); (at_ G2 100, CApproveRecovery 1)].

Definition st_ready : State := unwrap (run init_state setup).

(** Seven days and one second after the initiation. *)
Definition t_exec : Z := 100 + RECOVERY_DELAY + 1.

Definition st_done : State := unwrap (executeRecovery (at_ O t_exec) 1 st_ready).

(** The same, where [NA] registered guardian [g] of its own beforehand. *)
Definition setup_na (g : address) : list (Env * Call) :=
  (at_ NA 0, CAddGuardian g 1) :: setup.

Definition st_na_ready (g : address) : State := unwrap (run init_state (setup_na g)).
Definition st_na_done (g : address) : State :=
  unwrap (executeRecovery (at_ O t_exec) 1 (st_na_ready g)).

(** Two guardians of weight [2^255]. *)
Definition setup_heavy : list (Env * Call) :=
  [(at_ O 0, CAddGuardian G1 (2 ^ 255)); (at_ O 0, CAddGuardian G2 (2 ^ 255))].
Definition st_heavy : State := unwrap (run init_state setup_heavy).

(** Ten guardians added then all removed. *)
Definition setup_ten : list (Env * Call) :=
  map (fun n => (at_ O 0, CAddGuardian (100 + Z.of_nat n) 1)) (seq 0 10) ++
  map (fun n => (at_ O 0, CRemoveGuardian (100 + Z.of_nat n))) (seq 0 10).
Definition st_ten : State := unwrap (run init_state setup_ten).

(** The end-to-end scenario where [NA] is itself one of [O]'s guardians. *)
Definition setup_self : list (Env * Call) :=
  [(at_ O 0, CAddGuardian G1 1); (at_ O 0, CAddGuardian G2 1);
   (at_ O 0, CAddGuardian NA 1); (at_ O 0, CSetThreshold 2);
   (at_ G1 100, CInitiateRecovery O NA);
   (at_ G1 100, CApproveRecovery 1); (at_ G2 100, CApproveRecovery 1)].
Definition st_self_ready : State := unwrap (run init_state setup_self).

(** After the execution, [G2] opens a second recovery of [O]. *)
Definition st_again : State * Z :=
  match initiateRecovery (at_ G2 t_exec) O NA st_done with
  | Ok p => p
  | Revert _ => (init_state, 0)
  end.

End LedgerScenarios.

Module OrchestratorScenarios.
Import ShamirService Orchestrator.

Definition gm_demo : GM :=
  mkGM (fun _ => true) (fun _ => Done 2)
       (fun _ => [mkGuardianInfo "g1" "0xA1"; mkGuardianInfo "g2" "0xA2"]).

Definition byte_of_Z (z : Z) : Byte.byte :=
  match Byte.of_N (Z.to_N z) with Some b => b | None => Byte.x00 end.

(** The [combine] stand-in of [ShamirService.test.ts]. *)
Definition mock_combine (shs : list bytes) : outcome bytes :=
  match shs with
  | [] => Thrown "No shares"
  | [] :: _ => Done []
  | (index :: ys) :: _ =>
      Done (map (fun y => byte_of_Z ((byte_val y - (byte_val index - 1) + 256) mod 256)) ys)
  end.

(** Base64 decoding of the two shares used below. *)
Definition decode_demo (s : string) : bytes :=
  if String.eqb s "AQc=" then [Byte.x01; Byte.x07]
  else if String.eqb s "Agg=" then [Byte.x02; Byte.x08]
  else [].

Definition o_step (now : Z) (o : Op) (st : Store) : Store :=
  ostep gm_demo now mock_combine decode_demo o st.

(** A session is opened, both guardians submit, then the owner cancels. *)
Definition o_s1 : Store := o_step 0 (OpInitiate "sid" "0xOWNER" "0xNEW") empty_store.
Definition o_s2 : Store := o_step 1 (OpSubmit "sid" "0xa1" "AQc=") o_s1.
Definition o_s3 : Store := o_step 2 (OpSubmit "sid" "0xa2" "Agg=") o_s2.
Definition o_s4 : Store := o_step 3 (OpCancel "sid" "0xowner") o_s3.

End OrchestratorScenarios.

(* ================================================================= *)
(** ** Invariants *)

Module LedgerInvariants.
Import SovSealRecovery.

(** Guardian-management calls only write [guardians[msg.sender]] and
    [thresholds[msg.sender]]. *)
Definition same_recovery (st st' : State) : Prop :=
  recoveryRequests st' = recoveryRequests st /\
  recoveryCount st' = recoveryCount st /\
  activeRecovery st' = activeRecovery st.

(** Invariant of the request table. *)
Definition Inv (st : State) : Prop :=
  0 <= recoveryCount st /\
  (forall id, req_owner (recoveryRequests st id) <> 0 -> 1 <= id <= recoveryCount st) /\
  (forall id, active (recoveryRequests st id) = true ->
              activeRecovery st (req_owner (recoveryRequests st id)) = id).

(** Every stored weight is a [uint256]. *)
Definition WInv (st : State) : Prop :=
  forall o g, In g (guardians st o) -> 0 <= weight g.

(** A request slot that was never written holds the zero value; a written
    one carries the seven-day time-lock and a threshold of at least
    [MIN_THRESHOLD]. *)
Definition RInv (st : State) : Prop :=
  forall id,
    (req_owner (recoveryRequests st id) = 0 -> recoveryRequests st id = empty_request) /\
    (req_owner (recoveryRequests st id) <> 0 ->
       req_executeAfter (recoveryRequests st id) =
         req_initiatedAt (recoveryRequests st id) + RECOVERY_DELAY /\
       MIN_THRESHOLD <= req_threshold (recoveryRequests st id)).

(** Every stored guardian entry has a non-zero address and a non-zero
    [uint256] weight. *)
Definition GInv (st : State) : Prop :=
  forall o g, In g (guardians st o) -> addr g <> 0 /\ 1 <= weight g < UINT256_BOUND.

End LedgerInvariants.

Module OrchestratorInvariants.
Import Orchestrator.

Definition OInv (st : Store) : Prop := forall k, (count_active k (sessions st) <= 1)%nat.

Definition b2n (b : bool) : nat := if b then 1%nat else 0%nat.

(** Every stored session carries the seven-day time-lock, lower-cased and
    distinct addresses, and each guardian id at most once. *)
Definition SInv (st : Store) : Prop :=
  forall s, In s (sessions st) ->
    executeAfter s = initiatedAt s + RECOVERY_DELAY_MS /\
    toLowerCase (userAddress s) = userAddress s /\
    toLowerCase (newOwnerAddress s) = newOwnerAddress s /\
    userAddress s <> newOwnerAddress s /\
    NoDup (collectedShares s).

End OrchestratorInvariants.

(* ================================================================= *)
(** ** Proofs about the ledger contract *)

Module LedgerProofs.
Import SovSealRecovery LedgerInvariants.

Ltac break_ifs H :=
  repeat (match type of H with
          | context [if ?b then _ else _] =>
              let E := fresh "E" in destruct b eqn:E
          end; try discriminate H).

Lemma upd_same {A} (f : Z -> A) k v : upd f k v k = v.
Proof. unfold upd. now rewrite Z.eqb_refl. Qed.

Lemma upd_other {A} (f : Z -> A) k v x : x <> k -> upd f k v x = f x.
Proof. intros Hne. unfold upd. destruct (Z.eqb_spec x k); congruence. Qed.


Lemma addGuardian_frame env g w st st' :
  addGuardian env g w st = Ok st' -> same_recovery st st'.
Proof.
  unfold addGuardian. intros H. break_ifs H.
  injection H as <-. repeat split.
Qed.

Lemma removeGuardian_frame env g st st' :
  removeGuardian env g st = Ok st' -> same_recovery st st'.
Proof.
  unfold removeGuardian. destruct (deactivate_first _ _) as [l' found].
  intros H. break_ifs H. injection H as <-. repeat split.
Qed.

Lemma setThreshold_frame env k st st' :
  setThreshold env k st = Ok st' -> same_recovery st st'.
Proof.
  unfold setThreshold, bind. intros H. break_ifs H.
  destruct (_getTotalGuardianWeight st (msg_sender env)); try discriminate.
  break_ifs H. injection H as <-. repeat split.
Qed.

Lemma transplant_frame st o n st' :
  transplant st o n = Ok st' -> same_recovery st st'.
Proof.
  unfold transplant. intros H. break_ifs H. injection H as <-. repeat split.
Qed.


Lemma Inv_init : Inv init_state.
Proof.
  split; [simpl; lia|]. split; simpl.
  - intros id H. now contradiction H.
  - intros id H. discriminate H.
Qed.

Lemma Inv_frame st st' : same_recovery st st' -> Inv st -> Inv st'.
Proof.
  intros (HR & HC & HA). unfold Inv. now rewrite HR, HC, HA.
Qed.

Lemma active_owner r : active r = true -> req_owner r <> 0.
Proof.
  unfold active. destruct (req_owner r =? 0) eqn:E; simpl; [discriminate|].
  intros _. now apply Z.eqb_neq.
Qed.

Lemma active_fields r :
  active r = true ->
  req_owner r <> 0 /\ req_executed r = false /\ req_cancelled r = false.
Proof.
  intros H. split; [now apply active_owner|].
  unfold active in H. destruct (req_executed r), (req_cancelled r);
    rewrite ?andb_false_r in H; simpl in H; try discriminate; auto.
Qed.

Lemma Inv_initiate env o n st st' id :
  Inv st -> initiateRecovery env o n st = Ok (st', id) -> Inv st'.
Proof.
  intros (H0 & H1 & H2) H. unfold initiateRecovery, bind, checked_add in H.
  break_ifs H. injection H as <- <-.
  apply Z.eqb_neq in E. apply negb_false_iff, Z.eqb_eq in E2.
  unfold Inv, set_active, set_request, set_count; simpl.
  split; [lia|]. split.
  - intros j Hj. unfold upd in *. destruct (Z.eqb_spec j (recoveryCount st + 1)); [lia|].
    specialize (H1 j Hj). lia.
  - intros j Hj. unfold upd in *. destruct (Z.eqb_spec j (recoveryCount st + 1)) as [Hj1|Hne].
    + subst j. simpl. now rewrite Z.eqb_refl.
    + specialize (H2 j Hj). pose proof (H1 j (active_owner _ Hj)).
      destruct (Z.eqb_spec (req_owner (recoveryRequests st j)) o) as [Ho|Ho]; [|exact H2].
      rewrite Ho in H2. lia.
Qed.

Lemma Inv_approve env id st st' :
  Inv st -> approveRecovery env id st = Ok st' -> Inv st'.
Proof.
  intros (H0 & H1 & H2) H. unfold approveRecovery, bind, checked_add in H.
  break_ifs H. injection H as <-.
  unfold Inv, set_request; simpl. split; [exact H0|]. split.
  - intros j Hj. unfold upd in *. destruct (Z.eqb_spec j id) as [Hji|]; [subst j|]; simpl in *; auto.
  - intros j Hj. unfold upd in *. destruct (Z.eqb_spec j id) as [Hji|]; [subst j|]; simpl in *; auto.
Qed.

(** Setting the active slot of the owner of a live request [id] to 0 and
    closing [id] keeps the invariant. *)
Lemma Inv_close st id r' :
  Inv st -> active (recoveryRequests st id) = true ->
  req_owner r' = req_owner (recoveryRequests st id) -> active r' = false ->
  Inv (set_active (set_request st id r') (req_owner (recoveryRequests st id)) 0).
Proof.
  intros (H0 & H1 & H2) Hact Ho Hr'.
  unfold Inv, set_active, set_request; simpl. split; [exact H0|]. split.
  - intros j Hj. unfold upd in Hj. destruct (Z.eqb_spec j id) as [Hji|]; [subst j|]; auto.
    apply H1. rewrite <- Ho. exact Hj.
  - intros j Hj. unfold upd in *. destruct (Z.eqb_spec j id) as [Hji|Hne]; [subst j|].
    + congruence.
    + pose proof (H2 j Hj) as Hj'. pose proof (H2 id Hact) as Hid.
      destruct (Z.eqb_spec (req_owner (recoveryRequests st j))
                            (req_owner (recoveryRequests st id))) as [Heq|]; auto.
      rewrite Heq in Hj'. congruence.
Qed.

Lemma Inv_execute env id st st' :
  Inv st -> executeRecovery env id st = Ok st' -> Inv st'.
Proof.
  intros HI H. unfold executeRecovery in H. break_ifs H.
  apply transplant_frame in H. apply (Inv_frame _ _ H).
  apply Inv_close; auto.
  - unfold active. rewrite E, E0, E1. reflexivity.
  - unfold active, with_executed; simpl. now rewrite andb_false_r.
Qed.

Lemma Inv_cancel env id st st' :
  Inv st -> cancelRecovery env id st = Ok st' -> Inv st'.
Proof.
  intros HI H. unfold cancelRecovery in H. break_ifs H.
  injection H as <-. apply Inv_close; auto.
  - unfold active. rewrite E, E0, E1. reflexivity.
  - unfold active, with_cancelled; simpl. now rewrite andb_false_r.
Qed.

Lemma Inv_tx st st' : Inv st -> tx st st' -> Inv st'.
Proof.
  intros HI Htx. destruct Htx as [env c st st' _ Hs].
  destruct c; simpl in Hs.
  - exact (Inv_frame _ _ (addGuardian_frame _ _ _ _ _ Hs) HI).
  - exact (Inv_frame _ _ (removeGuardian_frame _ _ _ _ Hs) HI).
  - exact (Inv_frame _ _ (setThreshold_frame _ _ _ _ Hs) HI).
  - unfold bind in Hs. destruct (initiateRecovery env owner newOwner st) as [[s i]|] eqn:Ei;
      try discriminate. injection Hs as <-. exact (Inv_initiate _ _ _ _ _ _ HI Ei).
  - exact (Inv_approve _ _ _ _ HI Hs).
  - exact (Inv_execute _ _ _ _ HI Hs).
  - exact (Inv_cancel _ _ _ _ HI Hs).
Qed.

Lemma Inv_reachable st : reachable st -> Inv st.
Proof.
  induction 1; [exact Inv_init|]. eapply Inv_tx; eauto.
Qed.

Lemma run_cons st ec l :
  run st (ec :: l) =
  match step (fst ec) (snd ec) st with Ok s => run s l | Revert e => Revert e end.
Proof.
  unfold run. simpl. destruct (step (fst ec) (snd ec) st) as [s|e]; [reflexivity|].
  clear. induction l as [|x l IH]; simpl; auto.
Qed.

Lemma run_reachable st l st' :
  reachable st -> forallb (fun ec => valid_call (fst ec) (snd ec)) l = true ->
  run st l = Ok st' -> reachable st'.
Proof.
  revert st. induction l as [|ec l IH]; intros st Hr Hv H.
  - unfold run in H. simpl in H. now injection H as <-.
  - rewrite run_cons in H. simpl in Hv. apply andb_true_iff in Hv as [Hv1 Hv].
    destruct (step (fst ec) (snd ec) st) as [s|] eqn:Es; [|discriminate].
    apply (IH s); auto. apply (reach_tx st s Hr). econstructor; eauto.
Qed.

(** Calls that leave the guardian lists alone. *)
Lemma setThreshold_guardians env k st st' :
  setThreshold env k st = Ok st' -> guardians st' = guardians st.
Proof.
  unfold setThreshold, bind. intros H. break_ifs H.
  destruct (_getTotalGuardianWeight st (msg_sender env)); try discriminate.
  break_ifs H. now injection H as <-.
Qed.

Lemma initiate_guardians env o n st st' i :
  initiateRecovery env o n st = Ok (st', i) -> guardians st' = guardians st.
Proof.
  unfold initiateRecovery, bind, checked_add. intros H. break_ifs H.
  now injection H as <- <-.
Qed.

Lemma approve_guardians env id st st' :
  approveRecovery env id st = Ok st' -> guardians st' = guardians st.
Proof.
  unfold approveRecovery, bind, checked_add. intros H. break_ifs H.
  now injection H as <-.
Qed.

Lemma cancel_guardians env id st st' :
  cancelRecovery env id st = Ok st' -> guardians st' = guardians st.
Proof.
  unfold cancelRecovery. intros H. break_ifs H. now injection H as <-.
Qed.

(** The effect of a successful [executeRecovery]. *)
Lemma executeRecovery_effect env id st st' :
  executeRecovery env id st = Ok st' ->
  let r := recoveryRequests st id in
  req_owner r <> 0 /\ req_executed r = false /\ req_cancelled r = false /\
  req_executeAfter r <= block_timestamp env /\
  req_threshold r <= req_approvalWeight r /\
  (req_owner r = req_newOwner r -> existsb isActive (guardians st (req_owner r)) = false) /\
  st' = set_threshold
          (set_guardians
             (set_active (set_request st id (with_executed r)) (req_owner r) 0)
             (req_newOwner r)
             (guardians st (req_newOwner r) ++ filter isActive (guardians st (req_owner r))))
          (req_newOwner r) (thresholds st (req_owner r)).
Proof.
  unfold executeRecovery, transplant. intros H. cbv zeta in *. set (r := recoveryRequests st id) in *. break_ifs H.
  injection H as <-.
  apply Z.eqb_neq in E. apply Z.ltb_ge in E2. apply Z.ltb_ge in E3.
  split; [exact E|]. split; [reflexivity|]. split; [reflexivity|].
  split; [assumption|]. split; [assumption|]. split; [|reflexivity].
  intros Heq. apply andb_false_iff in E4 as [E4|E4]; [|exact E4].
  rewrite Heq, Z.eqb_refl in E4. discriminate.
Qed.

Lemma deactivate_first_length g l :
  List.length (fst (deactivate_first g l)) = List.length l.
Proof.
  induction l as [|x l IH]; simpl; auto.
  destruct (matches g x); simpl; auto.
  destruct (deactivate_first g l) as [l' f]; simpl in *. now rewrite IH.
Qed.

Lemma deactivate_first_weights g l x :
  In x (fst (deactivate_first g l)) -> exists y, In y l /\ weight y = weight x.
Proof.
  induction l as [|y l IH]; simpl; [tauto|].
  destruct (matches g y); simpl.
  - intros [<-|Hx]; [exists y; auto|exists x; auto].
  - destruct (deactivate_first g l) as [l' f] eqn:E; simpl in *.
    intros [<-|Hx]; [exists y; auto|]. destruct (IH Hx) as (z & Hz & Hw). exists z; auto.
Qed.


Lemma WInv_tx st st' : WInv st -> tx st st' -> WInv st'.
Proof.
  intros HW Htx. destruct Htx as [env c st st' Hv Hs].
  destruct c; simpl in Hs, Hv.
  - unfold addGuardian in Hs. break_ifs Hs. injection Hs as <-.
    intros o g. unfold set_guardians, upd; simpl.
    destruct (Z.eqb_spec o (msg_sender env)); [|apply HW].
    rewrite in_app_iff. intros [Hg|[<-|[]]]; [eapply HW; eauto|simpl].
    assert (Hw : is_uint256 weight0 = true)
      by (unfold valid_call in Hv; rewrite !andb_true_iff in Hv; tauto).
    unfold is_uint256 in Hw. apply andb_true_iff in Hw as [Hw _].
    apply Z.leb_le in Hw. exact Hw.
  - unfold removeGuardian in Hs.
    destruct (deactivate_first guardian (guardians st (msg_sender env))) as [l' f] eqn:E.
    break_ifs Hs. injection Hs as <-.
    intros o g. unfold set_guardians, upd; simpl.
    destruct (Z.eqb_spec o (msg_sender env)); [|apply HW].
    intros Hg. assert (Hg' : In g (fst (deactivate_first guardian (guardians st (msg_sender env)))))
      by now rewrite E. destruct (deactivate_first_weights _ _ _ Hg') as (y & Hy & <-).
    eapply HW; eauto.
  - intros o g. rewrite (setThreshold_guardians _ _ _ _ Hs). apply HW.
  - unfold bind in Hs. destruct (initiateRecovery env owner newOwner st) as [[s i]|] eqn:Ei;
      try discriminate. injection Hs as <-. intros o g.
    rewrite (initiate_guardians _ _ _ _ _ _ Ei). apply HW.
  - intros o g. rewrite (approve_guardians _ _ _ _ Hs). apply HW.
  - apply executeRecovery_effect in Hs. destruct Hs as (_ & _ & _ & _ & _ & _ & ->).
    intros o g. unfold set_threshold, set_guardians, set_active, set_request, upd; simpl.
    destruct (Z.eqb_spec o (req_newOwner (recoveryRequests st requestId))); [|apply HW].
    rewrite in_app_iff, filter_In. intros [Hg|[Hg _]]; eapply HW; eauto.
  - intros o g. rewrite (cancel_guardians _ _ _ _ Hs). apply HW.
Qed.

Lemma WInv_reachable st : reachable st -> WInv st.
Proof.
  induction 1; [intros o g []|]. eapply WInv_tx; eauto.
Qed.

Lemma sum_active_nonneg l : (forall g, In g l -> 0 <= weight g) -> 0 <= sum_active l.
Proof.
  induction l as [|g l IH]; simpl; intros H; [lia|].
  assert (0 <= weight g) by auto. assert (0 <= sum_active l) by auto.
  destruct (isActive g); lia.
Qed.

(** The checked loop of [_getTotalGuardianWeight] overflows exactly when the
    unbounded sum reaches [2^256]. *)
Lemma total_weight_loop_spec acc l :
  0 <= acc < UINT256_BOUND -> (forall g, In g l -> 0 <= weight g) ->
  total_weight_loop acc l =
  if acc + sum_active l <? UINT256_BOUND then Ok (acc + sum_active l)
  else Revert Panic_Overflow.
Proof.
  revert acc. induction l as [|g l IH]; intros acc Ha Hw; simpl.
  - rewrite Z.add_0_r. destruct (Z.ltb_spec acc UINT256_BOUND); [reflexivity|lia].
  - assert (Hg : 0 <= weight g) by (apply Hw; simpl; auto).
    assert (Hl : 0 <= sum_active l) by (apply sum_active_nonneg; intros x Hx; apply Hw; simpl; auto).
    assert (Hw2 : forall x, In x l -> 0 <= weight x) by (intros x Hx; apply Hw; simpl; auto).
    destruct (isActive g).
    + unfold checked_add, bind. destruct (Z.ltb_spec (acc + weight g) UINT256_BOUND).
      * rewrite IH by (auto; lia). now rewrite Z.add_assoc.
      * destruct (Z.ltb_spec (acc + (weight g + sum_active l)) UINT256_BOUND); [lia|reflexivity].
    + rewrite Z.add_0_l. apply IH; auto.
Qed.

Lemma getTotalGuardianWeight_spec st o :
  WInv st ->
  _getTotalGuardianWeight st o =
  if sum_active (guardians st o) <? UINT256_BOUND then Ok (sum_active (guardians st o))
  else Revert Panic_Overflow.
Proof.
  intros HW. unfold _getTotalGuardianWeight.
  rewrite total_weight_loop_spec; [|unfold UINT256_BOUND; lia|intros g; apply HW].
  reflexivity.
Qed.

(** No call shortens a stored guardian list. *)
Lemma tx_len_mono st st' o : tx st st' -> len (guardians st o) <= len (guardians st' o).
Proof.
  intros Htx. destruct Htx as [env c st st' _ Hs]. unfold len.
  destruct c; simpl in Hs.
  - unfold addGuardian in Hs. break_ifs Hs. injection Hs as <-.
    unfold set_guardians, upd; simpl.
    destruct (Z.eqb_spec o (msg_sender env)) as [->|]; [|lia].
    rewrite length_app. lia.
  - unfold removeGuardian in Hs.
    pose proof (deactivate_first_length guardian (guardians st (msg_sender env))) as HL.
    destruct (deactivate_first guardian (guardians st (msg_sender env))) as [l' f].
    break_ifs Hs. injection Hs as <-.
    unfold set_guardians, upd; simpl in *.
    destruct (Z.eqb_spec o (msg_sender env)) as [->|]; lia.
  - rewrite (setThreshold_guardians _ _ _ _ Hs). lia.
  - unfold bind in Hs. destruct (initiateRecovery env owner newOwner st) as [[s i]|] eqn:Ei;
      try discriminate. injection Hs as <-. rewrite (initiate_guardians _ _ _ _ _ _ Ei). lia.
  - rewrite (approve_guardians _ _ _ _ Hs). lia.
  - apply executeRecovery_effect in Hs. destruct Hs as (_ & _ & _ & _ & _ & _ & ->).
    unfold set_threshold, set_guardians, set_active, set_request, upd; simpl.
    destruct (Z.eqb_spec o (req_newOwner (recoveryRequests st requestId))) as [->|];
      [rewrite length_app|]; lia.
  - rewrite (cancel_guardians _ _ _ _ Hs). lia.
Qed.

Lemma txs_len_mono st st' o : txs st st' -> len (guardians st o) <= len (guardians st' o).
Proof.
  induction 1; [lia|]. pose proof (tx_len_mono _ _ o H). lia.
Qed.

(** A cancelled request slot is never written again. *)
Lemma cancelled_request_frozen st st' id :
  Inv st -> req_owner (recoveryRequests st id) <> 0 ->
  req_cancelled (recoveryRequests st id) = true -> tx st st' ->
  recoveryRequests st' id = recoveryRequests st id.
Proof.
  intros (H0 & H1 & H2) Ho Hc Htx. destruct Htx as [env c st st' _ Hs].
  destruct c; simpl in Hs.
  - now destruct (addGuardian_frame _ _ _ _ _ Hs) as (-> & _).
  - now destruct (removeGuardian_frame _ _ _ _ Hs) as (-> & _).
  - now destruct (setThreshold_frame _ _ _ _ Hs) as (-> & _).
  - unfold bind in Hs. destruct (initiateRecovery env owner newOwner st) as [[s i]|] eqn:Ei;
      try discriminate. injection Hs as <-.
    unfold initiateRecovery, bind, checked_add in Ei. break_ifs Ei. injection Ei as <- <-.
    unfold set_active, set_request, set_count, upd; simpl.
    specialize (H1 id Ho). destruct (Z.eqb_spec id (recoveryCount st + 1)); [lia|reflexivity].
  - unfold approveRecovery, bind, checked_add in Hs. break_ifs Hs. injection Hs as <-.
    unfold set_request, upd; simpl. destruct (Z.eqb_spec id requestId) as [->|]; [|reflexivity].
    congruence.
  - apply executeRecovery_effect in Hs. destruct Hs as (_ & _ & Hc' & _ & _ & _ & ->).
    unfold set_threshold, set_guardians, set_active, set_request, upd; simpl.
    destruct (Z.eqb_spec id requestId) as [->|]; [congruence|reflexivity].
  - unfold cancelRecovery in Hs. break_ifs Hs. injection Hs as <-.
    unfold set_active, set_request, upd; simpl.
    destruct (Z.eqb_spec id requestId) as [->|]; [congruence|reflexivity].
Qed.

Lemma filter_idem {A} (f : A -> bool) l : filter f (filter f l) = filter f l.
Proof.
  induction l as [|x l IH]; simpl; auto.
  destruct (f x) eqn:E; simpl; [rewrite E|]; now rewrite IH.
Qed.

Lemma existsb_false_filter {A} (f : A -> bool) l : existsb f l = false -> filter f l = [].
Proof.
  induction l as [|x l IH]; simpl; auto.
  destruct (f x); simpl; [discriminate|exact IH].
Qed.

(** [addGuardian] refuses an address that is already active, so it keeps
    the active addresses of a list distinct. *)
Lemma nodup_active_snoc l x :
  nodup_active l = true -> existsb (matches (addr x)) l = false ->
  nodup_active (l ++ [x]) = true.
Proof.
  induction l as [|g l IH]; simpl; intros Hn Hx.
  - now rewrite orb_true_r.
  - apply andb_true_iff in Hn as [Hg Hn]. apply orb_false_iff in Hx as [Hgx Hx].
    rewrite IH by auto. rewrite andb_true_r.
    destruct (isActive g) eqn:Ea; simpl in *; auto.
    rewrite existsb_app. simpl. apply negb_true_iff in Hg. rewrite Hg. simpl.
    unfold matches in *. rewrite Ea, andb_true_r in Hgx.
    rewrite Z.eqb_sym, Hgx. reflexivity.
Qed.

Lemma addGuardian_nodup env g w st st' o :
  addGuardian env g w st = Ok st' ->
  nodup_active (guardians st o) = true -> nodup_active (guardians st' o) = true.
Proof.
  unfold addGuardian. intros H Hn. break_ifs H. injection H as <-.
  unfold set_guardians, upd; simpl.
  destruct (Z.eqb_spec o (msg_sender env)) as [->|]; auto.
  apply nodup_active_snoc; auto.
Qed.

Lemma cancelled_request_frozen_txs s1 s2 id :
  txs s1 s2 -> Inv s1 -> req_owner (recoveryRequests s1 id) <> 0 ->
  req_cancelled (recoveryRequests s1 id) = true ->
  recoveryRequests s2 id = recoveryRequests s1 id.
Proof.
  induction 1 as [s|s s' s'' Ht Hts IH]; intros HI Ho Hc; [reflexivity|].
  pose proof (cancelled_request_frozen _ _ id HI Ho Hc Ht) as Heq.
  rewrite <- Heq. apply IH; [eapply Inv_tx; eauto|rewrite Heq; auto|rewrite Heq; auto].
Qed.

(** On the ledger, a cancelled request stays cancelled: every later approval
    or execution of it reverts with [RecoveryAlreadyCancelled]. *)
Lemma ledger_cancelled_final st st' st'' env id :
  reachable st -> cancelRecovery env id st = Ok st' -> txs st' st'' ->
  forall env', approveRecovery env' id st'' = Revert RecoveryAlreadyCancelled /\
               executeRecovery env' id st'' = Revert RecoveryAlreadyCancelled.
Proof.
  intros Hr Hc Hs env'.
  pose proof (Inv_reachable _ Hr) as HI.
  pose proof (Inv_cancel _ _ _ _ HI Hc) as HI'.
  unfold cancelRecovery in Hc. break_ifs Hc. injection Hc as <-.
  set (st1 := set_active _ _ _) in *.
  assert (Hid : recoveryRequests st1 id = with_cancelled (recoveryRequests st id))
    by (unfold st1, set_active, set_request; simpl; apply upd_same).
  apply Z.eqb_neq in E.
  pose proof (cancelled_request_frozen_txs _ _ id Hs HI') as Hf.
  rewrite Hid in Hf. specialize (Hf E eq_refl).
  unfold approveRecovery, executeRecovery. rewrite Hf. simpl.
  destruct (Z.eqb_spec (req_owner (recoveryRequests st id)) 0); [contradiction|].
  rewrite E0. split; reflexivity.
Qed.

End LedgerProofs.

(* ================================================================= *)
(** ** Proofs about the orchestrator *)

Module OrchestratorProofs.
Import ShamirService Orchestrator OrchestratorInvariants.

Lemma lower_ascii_idem c : lower_ascii (lower_ascii c) = lower_ascii c.
Proof.
  destruct c as [[] [] [] [] [] [] [] []]; reflexivity.
Qed.

Lemma toLowerCase_idem s : toLowerCase (toLowerCase s) = toLowerCase s.
Proof.
  induction s as [|c s IH]; simpl; [reflexivity|]. now rewrite lower_ascii_idem, IH.
Qed.



Lemma count_active_cons k s l :
  count_active k (s :: l) = (b2n (active_for k s) + count_active k l)%nat.
Proof. unfold count_active. simpl. destruct (active_for k s); reflexivity. Qed.

Lemma count_active_app k l1 l2 :
  count_active k (l1 ++ l2) = (count_active k l1 + count_active k l2)%nat.
Proof. unfold count_active. now rewrite filter_app, length_app. Qed.

Lemma find_none_filter {A} (p : A -> bool) l : find p l = None -> filter p l = [].
Proof.
  induction l as [|x l IH]; simpl; auto.
  destruct (p x); [discriminate|]. exact IH.
Qed.

(** [replace_first] swaps one element for [s]. *)
Lemma replace_first_count s l l' k :
  replace_first s l = Some l' ->
  (count_active k l' <= count_active k l + b2n (active_for k s))%nat.
Proof.
  revert l'. induction l as [|x l IH]; simpl; intros l' H; [discriminate|].
  destruct (String.eqb (id x) (id s)).
  - injection H as <-. rewrite !count_active_cons. lia.
  - destruct (replace_first s l) as [l''|] eqn:E; simpl in H; [|discriminate].
    injection H as <-. rewrite !count_active_cons. specialize (IH l'' eq_refl). lia.
Qed.

(** [saveSession] on the session that [getSession] returned replaces it. *)
Lemma replace_first_found sid e s l :
  find (fun x => String.eqb (id x) sid) l = Some e -> id s = sid ->
  exists l', replace_first s l = Some l' /\
    forall k, (count_active k l' + b2n (active_for k e) =
               count_active k l + b2n (active_for k s))%nat.
Proof.
  intros Hf Hid. induction l as [|x l IH]; simpl in *; [discriminate|].
  rewrite Hid. destruct (String.eqb (id x) sid).
  - injection Hf as ->. exists (s :: l). split; [reflexivity|].
    intros k. rewrite !count_active_cons. lia.
  - destruct (IH Hf) as (l' & Hr & Hc). rewrite Hr. exists (x :: l'). split; [reflexivity|].
    intros k. rewrite !count_active_cons. specialize (Hc k). lia.
Qed.

Lemma OInv_save_found st st1 sid e s :
  OInv st -> getSession sid st = Some e -> id s = sid ->
  sessions st1 = sessions st ->
  (forall k, active_for k s = true -> active_for k e = true) ->
  OInv (saveSession s st1).
Proof.
  intros HI Hg Hid Hs Hact k. unfold saveSession; simpl. rewrite Hs.
  destruct (replace_first_found sid e s (sessions st) Hg Hid) as (l' & Hr & Hc).
  rewrite Hr. specialize (Hc k). specialize (HI k). specialize (Hact k).
  destruct (active_for k s) eqn:E1, (active_for k e); simpl in *; try lia.
Qed.

Lemma active_for_fields k s s' :
  userAddress s' = userAddress s ->
  (is_terminal (status s) = false \/ is_terminal (status s') = true) ->
  active_for k s' = true -> active_for k s = true.
Proof.
  unfold active_for. intros Hu [Ht|Ht]; rewrite Hu.
  - now rewrite Ht, andb_true_r, andb_true_iff; intros [? _].
  - now rewrite Ht, andb_false_r.
Qed.

Lemma getActiveSession_none u st :
  getActiveSession u st = None -> count_active (toLowerCase u) (sessions st) = 0%nat.
Proof.
  unfold getActiveSession, count_active, active_for. intros H.
  now rewrite (find_none_filter _ _ H).
Qed.

Lemma OInv_initiate gm now nid u n st st' s :
  OInv st -> initiateRecovery gm now nid u n st = OOk (st', s) -> OInv st'.
Proof.
  intros HI H. unfold initiateRecovery in H.
  destruct (_ || _); [discriminate|].
  destruct (String.eqb (toLowerCase u) (toLowerCase n)); [discriminate|].
  destruct (negb _); [discriminate|].
  destruct (getRecoveryConfig gm u) as [th|]; [|discriminate].
  destruct (getActiveSession u st) eqn:Ea; [discriminate|].
  injection H as <- <-. apply getActiveSession_none in Ea.
  intros k. unfold saveSession; simpl.
  set (s := mkSession nid (toLowerCase u) (toLowerCase n) pending th [] now
              (now + RECOVERY_DELAY_MS) None None).
  assert (Hk : (count_active k (sessions st) + b2n (active_for k s) <= 1)%nat).
  { unfold active_for; simpl. rewrite toLowerCase_idem, andb_true_r.
    destruct (String.eqb_spec (toLowerCase u) k) as [<-|]; simpl.
    - rewrite Ea. lia.
    - specialize (HI k). lia. }
  destruct (replace_first s (sessions st)) as [l'|] eqn:Er.
  - pose proof (replace_first_count _ _ _ k Er). lia.
  - rewrite count_active_app. unfold count_active at 2. simpl.
    unfold b2n in Hk. destruct (active_for k s); simpl in *; lia.
Qed.

Lemma OInv_step gm now combine decodeShare o st :
  OInv st -> OInv (ostep gm now combine decodeShare o st).
Proof.
  intros HI. destruct o as [nid u n|sid g enc|sid|sid|sid c]; simpl.
  - destruct (initiateRecovery gm now nid u n st) as [[st' s]|] eqn:E; [|exact HI].
    exact (OInv_initiate _ _ _ _ _ _ _ _ HI E).
  - unfold submitShare. destruct (getSession sid st) as [e|] eqn:Eg; [|exact HI].
    destruct (is_terminal (status e)) eqn:Et; [exact HI|].
    destruct (find _ _) as [gi|]; [|exact HI].
    destruct (existsb _ _); [exact HI|].
    eapply OInv_save_found; eauto; [simpl|].
    + unfold getSession in Eg. apply find_some in Eg as [_ Eg].
      now apply String.eqb_eq in Eg.
    + intros k. apply active_for_fields; simpl; auto.
  - unfold checkReadiness. destruct (getSession sid st) as [e|] eqn:Eg; [|exact HI].
    destruct (_ && _ && _) eqn:Ec; simpl; [|exact HI].
    eapply OInv_save_found; eauto.
    + unfold getSession in Eg. apply find_some in Eg as [_ Eg].
      now apply String.eqb_eq in Eg.
    + intros k. apply active_for_fields; simpl; auto.
      apply andb_true_iff in Ec as [_ Ec]. left.
      destruct (status e); try discriminate Ec; reflexivity.
  - unfold executeRecovery. destruct (getSession sid st) as [e|] eqn:Eg; [|exact HI].
    destruct (_ <? _); [exact HI|]. destruct (now <? _); [exact HI|].
    destruct (combineShares _ _) as [secret|]; [|exact HI]. simpl.
    eapply OInv_save_found; eauto.
    + unfold getSession in Eg. apply find_some in Eg as [_ Eg].
      now apply String.eqb_eq in Eg.
    + intros k. apply active_for_fields; simpl; auto.
  - unfold cancelRecovery. destruct (getSession sid st) as [e|] eqn:Eg; [|exact HI].
    destruct (status_eqb (status e) executed); [exact HI|].
    destruct (status_eqb (status e) cancelled); [exact HI|].
    destruct (_ && _); [exact HI|].
    eapply OInv_save_found; eauto.
    + unfold getSession in Eg. apply find_some in Eg as [_ Eg].
      now apply String.eqb_eq in Eg.
    + intros k. apply active_for_fields; simpl; auto.
Qed.

Lemma OInv_reachable st : oreachable st -> OInv st.
Proof.
  induction 1.
  - intros k. unfold count_active. simpl. lia.
  - now apply OInv_step.
Qed.

Lemma replace_first_find sid e s l :
  find (fun x => String.eqb (id x) sid) l = Some e -> id s = sid ->
  exists l', replace_first s l = Some l' /\ find (fun x => String.eqb (id x) sid) l' = Some s.
Proof.
  intros Hf Hid. induction l as [|x l IH]; simpl in *; [discriminate|].
  rewrite Hid. destruct (String.eqb (id x) sid) eqn:Ex.
  - exists (s :: l). simpl. now rewrite Hid, String.eqb_refl.
  - destruct (IH Hf) as (l' & Hr & Hl'). rewrite Hr. exists (x :: l'). simpl.
    now rewrite Ex.
Qed.

(** [saveSession] of a session whose id [getSession] found puts it in place. *)
Lemma getSession_save sid e s st :
  getSession sid st = Some e -> id s = sid -> getSession sid (saveSession s st) = Some s.
Proof.
  unfold getSession, saveSession. simpl. intros Hf Hid.
  destruct (replace_first_find sid e s _ Hf Hid) as (l' & -> & Hl'). exact Hl'.
Qed.

End OrchestratorProofs.

(* ================================================================= *)
(** ** The claims about the ledger contract *)

Module LedgerClaims.
Import SovSealRecovery LedgerInvariants LedgerProofs LedgerScenarios.

Lemma run_ok_unwrap st l :
  (match run st l with Ok _ => true | Revert _ => false end) = true ->
  run st l = Ok (unwrap (run st l)).
Proof. destruct (run st l); [reflexivity|discriminate]. Qed.

Lemma st_ready_reachable : reachable st_ready.
Proof.
  apply (run_reachable init_state setup); [constructor|vm_compute; reflexivity|].
  apply run_ok_unwrap. vm_compute. reflexivity.
Qed.

Lemma st_ready_exec : executeRecovery (at_ O t_exec) 1 st_ready = Ok st_done.
Proof. reflexivity. Qed.

Lemma st_na_ready_reachable g : In g [G1; G_NA] -> reachable (st_na_ready g).
Proof.
  intros Hg. apply (run_reachable init_state (setup_na g)); [constructor| |];
    destruct Hg as [<-|[<-|[]]]; try (vm_compute; reflexivity);
    apply run_ok_unwrap; vm_compute; reflexivity.
Qed.

(** C2 (amended). [executeRecovery] succeeds only when the request exists
    (its owner is not 0), is neither executed nor cancelled,
    [block.timestamp >= executeAfter] and [approvalWeight >= threshold]; on
    success it clears the owner's active-request slot, marks the request
    executed, APPENDS the owner's active guardians to the new owner's stored
    list and copies the owner's threshold to the new owner.  The new owner's
    active guardians are then its previous active guardians followed by the
    old owner's, and equal the old owner's active guardians when it had none. *)
Theorem executeRecovery_gate_and_transplant env id st st' :
  executeRecovery env id st = Ok st' ->
  let r := recoveryRequests st id in
  req_owner r <> 0 /\ req_executed r = false /\ req_cancelled r = false /\
  req_executeAfter r <= block_timestamp env /\
  req_threshold r <= req_approvalWeight r /\
  activeRecovery st' (req_owner r) = 0 /\
  req_executed (recoveryRequests st' id) = true /\
  guardians st' (req_newOwner r) =
    guardians st (req_newOwner r) ++ filter isActive (guardians st (req_owner r)) /\
  getGuardians st' (req_newOwner r) =
    getGuardians st (req_newOwner r) ++ getGuardians st (req_owner r) /\
  thresholds st' (req_newOwner r) = thresholds st (req_owner r) /\
  (getGuardians st (req_newOwner r) = [] ->
   getGuardians st' (req_newOwner r) = getGuardians st (req_owner r)).
Proof.
  intros H; cbv zeta.
  destruct (executeRecovery_effect _ _ _ _ H) as (Ho & Hx & Hc & Ht & Hw & _ & ->).
  unfold getGuardians, set_threshold, set_guardians, set_active, set_request; simpl.
  rewrite !upd_same. simpl.
  split; [exact Ho|]. split; [exact Hx|]. split; [exact Hc|].
  split; [exact Ht|]. split; [exact Hw|]. split; [reflexivity|]. split; [reflexivity|].
  split; [reflexivity|]. split; [now rewrite filter_app, filter_idem|].
  split; [reflexivity|].
  intros Hn. now rewrite filter_app, filter_idem, Hn.
Qed.

Lemma executeRecovery_gate_and_transplant_witness :
  executeRecovery (at_ O t_exec) 1 st_ready = Ok st_done /\
  getGuardians st_done NA = getGuardians st_ready O.
Proof.
  assert (H : executeRecovery (at_ O t_exec) 1 st_ready = Ok st_done) by reflexivity.
  split; [exact H|].
  destruct (executeRecovery_gate_and_transplant _ _ _ _ H)
    as (_ & _ & _ & _ & _ & _ & _ & _ & _ & _ & Hn).
  exact (Hn eq_refl).
Defined.

(** C2 counterexample.  When the new owner [NA] already has a guardian of
    its own, after a successful execution its guardian set is not the old
    owner's active guardians. *)
Lemma executeRecovery_new_owner_keeps_own_guardians :
  reachable (st_na_ready G_NA) /\
  executeRecovery (at_ O t_exec) 1 (st_na_ready G_NA) = Ok (st_na_done G_NA) /\
  getGuardians (st_na_done G_NA) NA <> getGuardians (st_na_ready G_NA) O.
Proof.
  split; [apply st_na_ready_reachable; simpl; auto|].
  split; [reflexivity|].
  intros H. apply (f_equal (@List.length Guardian)) in H. vm_compute in H. discriminate H.
Qed.

(** C5 (code bug).  The new owner [NA] has guardian [G1] active; the old
    owner [O] has [G1], [G2], [G3] active, each list without duplicates.
    After [executeRecovery] the list of [NA] holds [G1] active twice. *)
Theorem transplant_duplicates_active_guardian :
  reachable (st_na_done G1) /\
  nodup_active (guardians (st_na_ready G1) NA) = true /\
  nodup_active (guardians (st_na_ready G1) O) = true /\
  map addr (getGuardians (st_na_done G1) NA) = [G1; G1; G2; G3] /\
  nodup_active (guardians (st_na_done G1) NA) = false.
Proof.
  split.
  - apply (reach_tx (st_na_ready G1)).
    + apply st_na_ready_reachable; simpl; auto.
    + apply (tx_ok (at_ O t_exec) (CExecuteRecovery 1)); [vm_compute; reflexivity|].
      reflexivity.
  - vm_compute. repeat split.
Qed.

(** C6 (amended).  A successful [executeRecovery] leaves the old owner's
    stored guardian list and threshold as they were; its active guardians
    are appended to the new owner's stored list and its threshold becomes
    the new owner's (copied, not moved); only the old owner's active-request
    slot is cleared. *)
Theorem executeRecovery_keeps_old_config env id st st' :
  executeRecovery env id st = Ok st' ->
  let o := req_owner (recoveryRequests st id) in
  let n := req_newOwner (recoveryRequests st id) in
  guardians st' o = guardians st o /\ thresholds st' o = thresholds st o /\
  activeRecovery st' o = 0 /\
  guardians st' n = guardians st n ++ filter isActive (guardians st o) /\
  getGuardians st' n = getGuardians st n ++ getGuardians st o /\
  thresholds st' n = thresholds st o.
Proof.
  intros H o n. destruct (executeRecovery_effect _ _ _ _ H) as (_ & _ & _ & _ & _ & Hsame & ->).
  unfold getGuardians, set_threshold, set_guardians, set_active, set_request; simpl.
  fold o n in Hsame |- *. rewrite upd_same. rewrite !upd_same.
  rewrite filter_app, filter_idem.
  unfold upd. destruct (Z.eqb_spec o n) as [Heq|Hne].
  - rewrite (existsb_false_filter _ _ (Hsame Heq)), !app_nil_r. rewrite <- Heq.
    repeat split.
  - repeat split.
Qed.

Lemma executeRecovery_keeps_old_config_witness :
  executeRecovery (at_ O t_exec) 1 st_ready = Ok st_done /\
  guardians st_done O = guardians st_ready O /\ thresholds st_done O = thresholds st_ready O.
Proof.
  assert (H : executeRecovery (at_ O t_exec) 1 st_ready = Ok st_done) by reflexivity.
  destruct (executeRecovery_keeps_old_config _ _ _ _ H) as (Hg & Ht & _ & _ & _ & _).
  split; [exact H|]. split; [exact Hg|exact Ht].
Defined.

(** C6 counterexample.  After the end-to-end recovery to [NA], the old owner
    [O] still has its three stored guardians and threshold 2. *)
Lemma old_owner_config_retained_example :
  reachable st_ready /\ executeRecovery (at_ O t_exec) 1 st_ready = Ok st_done /\
  List.length (getGuardians st_done O) = 3%nat /\ thresholds st_done O = 2.
Proof.
  split; [exact st_ready_reachable|]. split; [reflexivity|].
  vm_compute. split; reflexivity.
Qed.

(** C9.  [setThreshold], [addGuardian] and [removeGuardian] leave every
    recovery request (its [threshold] and [approvalWeight] included) as it
    was; [initiateRecovery] snapshots the owner's threshold into the request
    and starts its approval weight at 0. *)
Theorem config_calls_keep_requests :
  (forall env k st st', setThreshold env k st = Ok st' ->
     recoveryRequests st' = recoveryRequests st) /\
  (forall env g w st st', addGuardian env g w st = Ok st' ->
     recoveryRequests st' = recoveryRequests st) /\
  (forall env g st st', removeGuardian env g st = Ok st' ->
     recoveryRequests st' = recoveryRequests st) /\
  (forall env o n st st' i, initiateRecovery env o n st = Ok (st', i) ->
     req_threshold (recoveryRequests st' i) = thresholds st o /\
     req_approvalWeight (recoveryRequests st' i) = 0).
Proof.
  split; [intros; now destruct (setThreshold_frame _ _ _ _ H)|].
  split; [intros; now destruct (addGuardian_frame _ _ _ _ _ H)|].
  split; [intros; now destruct (removeGuardian_frame _ _ _ _ H)|].
  intros env o n st st' i H. unfold initiateRecovery, bind, checked_add in H.
  break_ifs H. injection H as <- <-.
  unfold set_active, set_request, set_count; simpl. rewrite upd_same. simpl. auto.
Qed.

Lemma config_calls_keep_requests_witness :
  setThreshold (at_ O 0) 3 st_ready = Ok (set_threshold st_ready O 3) /\
  recoveryRequests (set_threshold st_ready O 3) = recoveryRequests st_ready.
Proof.
  assert (H : setThreshold (at_ O 0) 3 st_ready = Ok (set_threshold st_ready O 3))
    by reflexivity.
  split; [exact H|]. exact (proj1 config_calls_keep_requests _ _ _ _ H).
Defined.

Lemma st_heavy_reachable : reachable st_heavy.
Proof.
  apply (run_reachable init_state setup_heavy); [constructor|vm_compute; reflexivity|].
  apply run_ok_unwrap. vm_compute. reflexivity.
Qed.

Lemma st_ten_reachable : reachable st_ten.
Proof.
  apply (run_reachable init_state setup_ten); [constructor|vm_compute; reflexivity|].
  apply run_ok_unwrap. vm_compute. reflexivity.
Qed.

Lemma removeGuardian_len env g st st' o :
  removeGuardian env g st = Ok st' -> len (guardians st' o) = len (guardians st o).
Proof.
  unfold removeGuardian. cbv zeta.
  pose proof (deactivate_first_length g (guardians st (msg_sender env))) as HL.
  destruct (deactivate_first g (guardians st (msg_sender env))) as [l' f].
  intros H. break_ifs H. injection H as <-.
  unfold set_guardians, upd, len; simpl in *.
  destruct (Z.eqb_spec o (msg_sender env)) as [->|]; [now rewrite HL|reflexivity].
Qed.

(** C7 (amended).  In every reachable state, with [S] the sum of the
    sender's active guardian weights: [setThreshold(k)] succeeds exactly when
    [2 <= k <= S] and [S < 2^256], and then only sets the sender's threshold
    to [k].  It reverts with [InvalidThreshold] when [k < 2] or when
    [S < 2^256] and [S < k]; when [k >= 2] and [S >= 2^256] the checked sum in
    [_getTotalGuardianWeight] overflows and it reverts with [Panic_Overflow],
    whatever [k]. *)
Theorem setThreshold_spec env k st :
  reachable st ->
  let S := sum_active (guardians st (msg_sender env)) in
  (forall st', setThreshold env k st = Ok st' ->
     MIN_THRESHOLD <= k <= S /\ S < UINT256_BOUND /\
     st' = set_threshold st (msg_sender env) k) /\
  (MIN_THRESHOLD <= k <= S -> S < UINT256_BOUND ->
     setThreshold env k st = Ok (set_threshold st (msg_sender env) k)) /\
  (k < MIN_THRESHOLD -> setThreshold env k st = Revert InvalidThreshold) /\
  (MIN_THRESHOLD <= k -> UINT256_BOUND <= S -> setThreshold env k st = Revert Panic_Overflow) /\
  (MIN_THRESHOLD <= k -> S < UINT256_BOUND -> S < k ->
     setThreshold env k st = Revert InvalidThreshold).
Proof.
  intros Hr S. unfold setThreshold, bind. cbv zeta.
  rewrite (getTotalGuardianWeight_spec _ _ (WInv_reachable _ Hr)).
  change (sum_active (guardians st (msg_sender env))) with S.
  destruct (Z.ltb_spec k MIN_THRESHOLD) as [H1|H1];
    [repeat split; intros; try discriminate; lia|].
  destruct (Z.ltb_spec S UINT256_BOUND) as [H2|H2];
    [|repeat split; intros; try discriminate; try reflexivity; lia].
  destruct (Z.ltb_spec S k) as [H3|H3].
  - repeat split; intros; try discriminate; try reflexivity; lia.
  - repeat split; intros; try reflexivity; try lia.
    injection H as <-. reflexivity.
Qed.

Lemma setThreshold_spec_witness :
  reachable st_ready /\ setThreshold (at_ O 0) 3 st_ready = Ok (set_threshold st_ready O 3).
Proof.
  split; [exact st_ready_reachable|].
  pose proof (setThreshold_spec (at_ O 0) 3 st_ready st_ready_reachable) as P.
  cbv zeta in P. destruct P as (_ & P & _).
  apply P; [split|]; [apply Z.leb_le| apply Z.leb_le| apply Z.ltb_lt]; vm_compute; reflexivity.
Defined.

(** C7 counterexample.  [O] has two active guardians of weight [2^255];
    [k = 2] is at least 2 and below their sum [2^256], yet [setThreshold]
    reverts on the overflow of the weight sum. *)
Lemma setThreshold_overflow_example :
  reachable st_heavy /\ MIN_THRESHOLD <= 2 <= sum_active (guardians st_heavy O) /\
  setThreshold (at_ O 0) 2 st_heavy = Revert Panic_Overflow.
Proof.
  split; [exact st_heavy_reachable|]. split; [|reflexivity].
  split; apply Z.leb_le; vm_compute; reflexivity.
Qed.

(** C10 (amended).  [addGuardian] reverts with [MaxGuardiansReached]
    exactly when the guardian address is neither 0 nor the sender (those are
    checked first and revert with [InvalidAddress]) and the sender's stored
    list, active and removed entries alike, holds at least [MAX_GUARDIANS]
    entries; [removeGuardian] never changes a stored list's length; so once an
    owner's list holds 10 entries, every later [addGuardian] by that owner
    reverts. *)
Theorem guardian_slots_never_freed :
  (forall env g w st,
     addGuardian env g w st = Revert MaxGuardiansReached <->
     g <> 0 /\ g <> msg_sender env /\ MAX_GUARDIANS <= len (guardians st (msg_sender env))) /\
  (forall env g w st, g = 0 \/ g = msg_sender env ->
     addGuardian env g w st = Revert InvalidAddress) /\
  (forall env g st st', removeGuardian env g st = Ok st' ->
     forall o, len (guardians st' o) = len (guardians st o)) /\
  (forall st st' o, MAX_GUARDIANS <= len (guardians st o) -> txs st st' ->
     forall env g w, msg_sender env = o -> exists e, addGuardian env g w st' = Revert e).
Proof.
  split; [|split; [|split]].
  - intros env g w st. unfold addGuardian. cbv zeta.
    destruct (Z.eqb_spec g 0); [split; [discriminate|tauto]|].
    destruct (Z.eqb_spec g (msg_sender env)); [split; [discriminate|tauto]|].
    destruct (Z.leb_spec MAX_GUARDIANS (len (guardians st (msg_sender env))));
      [split; auto|].
    split; [|intros (_ & _ & Hl); lia].
    destruct (w =? 0); [discriminate|]. destruct (existsb _ _); discriminate.
  - intros env g w st Hg. unfold addGuardian. cbv zeta.
    destruct Hg as [->| ->]; [reflexivity|].
    destruct (Z.eqb_spec (msg_sender env) 0); [reflexivity|]. now rewrite Z.eqb_refl.
  - intros env g st st' H o. exact (removeGuardian_len _ _ _ _ o H).
  - intros st st' o Hl Ht env g w Ho. subst o.
    pose proof (txs_len_mono _ _ (msg_sender env) Ht) as Hm.
    unfold addGuardian. cbv zeta.
    destruct (g =? 0); [eauto|]. destruct (g =? msg_sender env); [eauto|].
    destruct (Z.leb_spec MAX_GUARDIANS (len (guardians st' (msg_sender env)))); [eauto|lia].
Qed.

Lemma guardian_slots_never_freed_witness :
  MAX_GUARDIANS <= len (guardians st_ten O) /\
  exists e, addGuardian (at_ O 0) 50 1 st_ten = Revert e.
Proof.
  assert (Hl : MAX_GUARDIANS <= len (guardians st_ten O)) by (apply Z.leb_le; vm_compute; reflexivity).
  split; [exact Hl|].
  destruct guardian_slots_never_freed as (_ & _ & _ & P).
  exact (P st_ten st_ten O Hl (txs_refl st_ten) (at_ O 0) 50 1 eq_refl).
Defined.

(** C10 counterexample.  [O]'s stored list holds 10 entries (all removed),
    yet [addGuardian(0, 1)] reverts with [InvalidAddress], not
    [MaxGuardiansReached]. *)
Lemma max_guardians_precedence_example :
  reachable st_ten /\ len (guardians st_ten O) = MAX_GUARDIANS /\
  getGuardians st_ten O = [] /\
  addGuardian (at_ O 0) 0 1 st_ten = Revert InvalidAddress.
Proof.
  split; [exact st_ten_reachable|]. vm_compute. repeat split.
Qed.

Lemma ledger_cancelled_final_witness :
  reachable st_ready /\
  cancelRecovery (at_ O 200) 1 st_ready = Ok (unwrap (cancelRecovery (at_ O 200) 1 st_ready)) /\
  approveRecovery (at_ G3 300) 1 (unwrap (cancelRecovery (at_ O 200) 1 st_ready))
    = Revert RecoveryAlreadyCancelled.
Proof.
  assert (Hc : cancelRecovery (at_ O 200) 1 st_ready
               = Ok (unwrap (cancelRecovery (at_ O 200) 1 st_ready))) by reflexivity.
  split; [exact st_ready_reachable|]. split; [exact Hc|].
  exact (proj1 (ledger_cancelled_final _ _ _ _ _ st_ready_reachable Hc (txs_refl _)
                  (at_ G3 300))).
Defined.

End LedgerClaims.

(* ================================================================= *)
(** ** The claims about [ShamirService] and [RecoveryOrchestrator] *)

Module OrchestratorClaims.
Import ShamirService Orchestrator OrchestratorInvariants OrchestratorProofs
       OrchestratorScenarios.

Lemma getSession_id sid st s : getSession sid st = Some s -> id s = sid.
Proof.
  unfold getSession. intros H. apply find_some in H as [_ H].
  now apply String.eqb_eq.
Qed.

Lemma first_invalid_none i l :
  first_invalid i l = None -> forall s, In s l -> isValidShare s = true.
Proof.
  revert i. induction l as [|x l IH]; simpl; intros i H s Hs; [tauto|].
  destruct (isValidShare x) eqn:E; [|discriminate].
  destruct Hs as [<-|Hs]; [exact E|exact (IH _ H s Hs)].
Qed.

Lemma isValidShare_false s :
  isValidShare s = false <->
  (List.length s < 2)%nat \/
  (exists b t, s = b :: t /\ (byte_val b < 1 \/ MAX_SHARES < byte_val b)).
Proof.
  destruct s as [|b [|c t]]; simpl.
  - split; [lia|reflexivity].
  - split; [lia|reflexivity].
  - rewrite negb_false_iff, orb_true_iff, Z.ltb_lt, Z.ltb_lt. split.
    + intros H. right. exists b, (c :: t). auto.
    + intros [H|(b' & t' & E & H)]; [lia|]. injection E as <- _. exact H.
Qed.

Lemma oreachable_o_s4 : oreachable o_s4.
Proof.
  unfold o_s4, o_s3, o_s2, o_s1, o_step. repeat apply oreach_step. apply oreach_init.
Qed.

(** C4 (code bug).  The orchestrator's [executeRecovery] does not look at
    the session's status: on a CANCELLED session with at least [threshold]
    collected shares, an expired time-lock and shares the library combines,
    it returns [RecoverySuccess] with the reconstructed secret and stores the
    session as [executed]. *)
Theorem cancelled_session_still_executes now combine decodeShare nowRemaining nowExecuted
  sid st session secret :
  getSession sid st = Some session ->
  status session = cancelled ->
  threshold session <= Z.of_nat (List.length (collectedShares session)) ->
  executeAfter session <= now ->
  combineShares combine (getSubmittedShares decodeShare sid st) = ROk secret ->
  fst (executeRecovery now combine decodeShare nowRemaining nowExecuted sid st)
    = RecoverySuccess secret /\
  option_map status
    (getSession sid (snd (executeRecovery now combine decodeShare nowRemaining nowExecuted sid st)))
    = Some executed.
Proof.
  intros Hg _ Ht He Hc. unfold executeRecovery. rewrite Hg.
  destruct (Z.ltb_spec (Z.of_nat (List.length (collectedShares session))) (threshold session));
    [lia|].
  destruct (Z.ltb_spec now (executeAfter session)); [lia|].
  rewrite Hc. split; [reflexivity|]. simpl.
  rewrite (getSession_save sid session _ st Hg); [reflexivity|].
  simpl. exact (getSession_id _ _ _ Hg).
Qed.

Lemma cancelled_session_still_executes_witness :
  oreachable o_s4 /\
  option_map status (getSession "sid" o_s4) = Some cancelled /\
  fst (executeRecovery RECOVERY_DELAY_MS mock_combine decode_demo RECOVERY_DELAY_MS RECOVERY_DELAY_MS "sid" o_s4)
    = RecoverySuccess [Byte.x07] /\
  option_map status
    (getSession "sid" (snd (executeRecovery RECOVERY_DELAY_MS mock_combine decode_demo RECOVERY_DELAY_MS RECOVERY_DELAY_MS "sid" o_s4)))
    = Some executed.
Proof.
  split; [exact oreachable_o_s4|]. split; [vm_compute; reflexivity|].
  apply (cancelled_session_still_executes RECOVERY_DELAY_MS mock_combine decode_demo
           RECOVERY_DELAY_MS RECOVERY_DELAY_MS "sid" o_s4
           (mkSession "sid" "0xowner" "0xnew" cancelled 2 ["g1"%string; "g2"%string] 0 RECOVERY_DELAY_MS
              None (Some 3)) [Byte.x07]).
  - vm_compute. reflexivity.
  - reflexivity.
  - apply Z.leb_le. vm_compute. reflexivity.
  - apply Z.leb_le. vm_compute. reflexivity.
  - vm_compute. reflexivity.
Defined.

(** C8.  Whatever the library's [split] and [combine] do: [splitSecret]
    fails with one of its invalid-input errors exactly when the secret is
    empty, [k < 2], [n > 255] or [k > n]; [combineShares] fails when given
    fewer than 2 shares or a share shorter than 2 bytes or whose first byte
    is outside [1..255]. *)
Theorem shamir_input_validation split combine :
  (forall secret k n,
     (exists e, splitSecret split secret k n = RErr e /\ invalid_input e = true) <->
     secret = [] \/ k < MIN_THRESHOLD \/ MAX_SHARES < n \/ n < k) /\
  (forall shs,
     ((List.length shs < 2)%nat \/
      exists s, In s shs /\
        ((List.length s < 2)%nat \/
         exists b t, s = b :: t /\ (byte_val b < 1 \/ MAX_SHARES < byte_val b))) ->
     exists e, combineShares combine shs = RErr e).
Proof.
  split.
  - intros secret k n. unfold splitSecret, validateSplitParams.
    destruct secret as [|x xs]; simpl.
    + split; [auto|]. intros _. now exists SecretEmpty.
    + destruct (Z.ltb_spec k MIN_THRESHOLD).
      { split; [auto|]. intros _. now exists ThresholdTooSmall. }
      destruct (Z.ltb_spec MAX_SHARES n).
      { split; [auto|]. intros _. now exists TooManyShares. }
      destruct (Z.ltb_spec n k).
      { split; [auto|]. intros _. now exists (ThresholdExceedsTotal k n). }
      split; [|intros [Hx|[Hx|[Hx|Hx]]]; [discriminate|lia|lia|lia]].
      intros (e & He & Hi). destruct (split (x :: xs) n k); [discriminate|].
      injection He as <-. discriminate.
  - intros shs H. unfold combineShares.
    match goal with |- context [Nat.eqb ?x 0] => destruct (Nat.eqb_spec x 0) end;
      [eexists; reflexivity|].
    match goal with |- context [Z.ltb ?x MIN_THRESHOLD] => destruct (Z.ltb_spec x MIN_THRESHOLD) end;
      [eexists; reflexivity|].
    destruct (first_invalid 0 shs) eqn:E; [eexists; reflexivity|].
    exfalso. destruct H as [H|(s & Hs & Hm)]; [unfold MIN_THRESHOLD, bytes in *; lia|].
    apply isValidShare_false in Hm. rewrite (first_invalid_none _ _ E s Hs) in Hm.
    discriminate.
Qed.

Lemma shamir_input_validation_witness :
  (exists e, splitSecret (fun _ _ _ => Thrown "unused") [Byte.x01] 3 2 = RErr e /\
             invalid_input e = true) /\
  (exists e, combineShares mock_combine [[Byte.x01; Byte.x07]; [Byte.x00; Byte.x08]] = RErr e).
Proof.
  destruct (shamir_input_validation (fun _ _ _ => Thrown "unused") mock_combine)
    as [P1 P2].
  split.
  - apply P1. right. right. right. apply Z.ltb_lt. reflexivity.
  - apply P2. right. exists [Byte.x00; Byte.x08]. split; [simpl; auto|].
    right. exists Byte.x00, [Byte.x08]. split; [reflexivity|]. left.
    apply Z.ltb_lt. reflexivity.
Defined.

End OrchestratorClaims.

(* ================================================================= *)
(** ** One live recovery per owner, on the ledger and off it *)

Module OwnerClaims.
Import SovSealRecovery LedgerInvariants LedgerProofs LedgerScenarios LedgerClaims.

Lemma active_slot st i :
  reachable st -> active (recoveryRequests st i) = true ->
  activeRecovery st (req_owner (recoveryRequests st i)) = i /\ 1 <= i.
Proof.
  intros Hr Ha. destruct (Inv_reachable _ Hr) as (_ & H1 & H2).
  split; [exact (H2 _ Ha)|]. apply (H1 i (active_owner _ Ha)).
Qed.

(** C3 (amended).  Ledger: in every reachable state two live requests of
    the same owner are the same request, and while one is live every
    [initiateRecovery] for that owner reverts, with [RecoveryAlreadyActive]
    once the new owner is non-zero and differs from the owner (those are
    checked first and revert with [InvalidAddress]).  Orchestrator (calls run
    one at a time): every store reached holds at most one non-terminal
    session per lower-cased owner address, and while [getActiveSession]
    finds one every [initiateRecovery] for that owner throws, with the
    [Recovery already in progress] message once both addresses are
    non-empty and differ after lower-casing, recovery is configured and
    [getRecoveryConfig] returns.  The earlier checks take precedence: on the
    ledger a zero new owner or one equal to the owner reverts with
    [InvalidAddress], and [RecoveryAlreadyActive] is raised only when those
    checks pass and the owner's slot is set; in the orchestrator empty
    addresses, equal lower-cased addresses, missing configuration and an
    error of [getRecoveryConfig] each throw their own message. *)
Theorem one_live_recovery_per_owner :
  (forall st, reachable st -> forall i j,
     active (recoveryRequests st i) = true -> active (recoveryRequests st j) = true ->
     req_owner (recoveryRequests st i) = req_owner (recoveryRequests st j) -> i = j) /\
  (forall st i env n, reachable st -> active (recoveryRequests st i) = true ->
     exists e, initiateRecovery env (req_owner (recoveryRequests st i)) n st = Revert e) /\
  (forall st i env n, reachable st -> active (recoveryRequests st i) = true ->
     n <> 0 -> n <> req_owner (recoveryRequests st i) ->
     initiateRecovery env (req_owner (recoveryRequests st i)) n st = Revert RecoveryAlreadyActive) /\
  (forall ost, Orchestrator.oreachable ost ->
     forall k, (Orchestrator.count_active k (Orchestrator.sessions ost) <= 1)%nat) /\
  (forall gm now ost nid u n s, Orchestrator.getActiveSession u ost = Some s ->
     exists m, Orchestrator.initiateRecovery gm now nid u n ost = Orchestrator.OThrow m) /\
  (forall gm now ost nid u n s th, Orchestrator.getActiveSession u ost = Some s ->
     u <> EmptyString -> n <> EmptyString ->
     Orchestrator.toLowerCase u <> Orchestrator.toLowerCase n ->
     Orchestrator.isRecoveryConfigured gm u = true ->
     Orchestrator.getRecoveryConfig gm u = ShamirService.Done th ->
     Orchestrator.initiateRecovery gm now nid u n ost =
       Orchestrator.OThrow "Recovery already in progress. Cancel existing session first.") /\
  (forall env o n st, n = 0 \/ n = o -> initiateRecovery env o n st = Revert InvalidAddress) /\
  (forall env o n st, initiateRecovery env o n st = Revert RecoveryAlreadyActive ->
     o <> 0 /\ n <> 0 /\ o <> n /\ activeRecovery st o <> 0) /\
  (forall gm now ost nid u n, u = EmptyString \/ n = EmptyString ->
     Orchestrator.initiateRecovery gm now nid u n ost =
       Orchestrator.OThrow "Both user and new owner addresses are required") /\
  (forall gm now ost nid u n, u <> EmptyString -> n <> EmptyString ->
     Orchestrator.toLowerCase u = Orchestrator.toLowerCase n ->
     Orchestrator.initiateRecovery gm now nid u n ost =
       Orchestrator.OThrow "New owner cannot be the same as current owner") /\
  (forall gm now ost nid u n, u <> EmptyString -> n <> EmptyString ->
     Orchestrator.toLowerCase u <> Orchestrator.toLowerCase n ->
     Orchestrator.isRecoveryConfigured gm u = false ->
     Orchestrator.initiateRecovery gm now nid u n ost =
       Orchestrator.OThrow "Recovery not configured - need at least threshold guardians") /\
  (forall gm now ost nid u n m, u <> EmptyString -> n <> EmptyString ->
     Orchestrator.toLowerCase u <> Orchestrator.toLowerCase n ->
     Orchestrator.isRecoveryConfigured gm u = true ->
     Orchestrator.getRecoveryConfig gm u = ShamirService.Thrown m ->
     Orchestrator.initiateRecovery gm now nid u n ost = Orchestrator.OThrow m).
Proof.
  split; [|split; [|split; [|split; [|split; [|split; [|split; [|split; [|split; [|split;
    [|split]]]]]]]]]].
  - intros st Hr i j Hi Hj Ho.
    destruct (active_slot _ i Hr Hi) as [Ei _]. destruct (active_slot _ j Hr Hj) as [Ej _].
    congruence.
  - intros st i env n Hr Ha. destruct (active_slot _ i Hr Ha) as [E1 E2].
    pose proof (active_owner _ Ha) as Ho.
    unfold initiateRecovery. set (o := req_owner (recoveryRequests st i)) in *.
    destruct (Z.eqb_spec o 0); [contradiction|].
    destruct (n =? 0); [eauto|]. destruct (o =? n); [eauto|].
    rewrite E1. destruct (Z.eqb_spec i 0); [lia|]. simpl. eauto.
  - intros st i env n Hr Ha Hn Hon. destruct (active_slot _ i Hr Ha) as [E1 E2].
    pose proof (active_owner _ Ha) as Ho.
    unfold initiateRecovery. set (o := req_owner (recoveryRequests st i)) in *.
    destruct (Z.eqb_spec o 0); [contradiction|].
    destruct (Z.eqb_spec n 0); [contradiction|].
    destruct (Z.eqb_spec o n); [congruence|].
    rewrite E1. destruct (Z.eqb_spec i 0); [lia|]. reflexivity.
  - exact OrchestratorProofs.OInv_reachable.
  - intros gm now ost nid u n s Hs. unfold Orchestrator.initiateRecovery.
    destruct (_ || _); [eauto|]. destruct (String.eqb _ _); [eauto|].
    destruct (negb _); [eauto|].
    destruct (Orchestrator.getRecoveryConfig gm u); [rewrite Hs|]; eauto.
  - intros gm now ost nid u n s th Hs Hu Hn Hl Hc Hg. unfold Orchestrator.initiateRecovery.
    apply String.eqb_neq in Hu, Hn, Hl. rewrite Hu, Hn, Hl, Hc, Hg, Hs. reflexivity.
  - intros env o n st Hn. unfold initiateRecovery.
    destruct Hn as [->| ->]; destruct (o =? 0); try reflexivity.
    now rewrite Z.eqb_refl.
  - intros env o n st H. unfold initiateRecovery, bind, checked_add in H.
    destruct (Z.eqb_spec o 0); [discriminate H|].
    destruct (Z.eqb_spec n 0); [discriminate H|].
    destruct (Z.eqb_spec o n); [discriminate H|].
    destruct (Z.eqb_spec (activeRecovery st o) 0); [|auto].
    simpl in H. break_ifs H; discriminate H.
  - intros gm now ost nid u n Hu. unfold Orchestrator.initiateRecovery.
    destruct Hu as [->| ->]; simpl; [reflexivity|]. now rewrite orb_true_r.
  - intros gm now ost nid u n Hu Hn Hl. unfold Orchestrator.initiateRecovery.
    apply String.eqb_neq in Hu, Hn. rewrite Hu, Hn, Hl, String.eqb_refl. reflexivity.
  - intros gm now ost nid u n Hu Hn Hl Hc. unfold Orchestrator.initiateRecovery.
    apply String.eqb_neq in Hu, Hn, Hl. rewrite Hu, Hn, Hl, Hc. reflexivity.
  - intros gm now ost nid u n m Hu Hn Hl Hc Hg. unfold Orchestrator.initiateRecovery.
    apply String.eqb_neq in Hu, Hn, Hl. rewrite Hu, Hn, Hl, Hc, Hg. reflexivity.
Qed.

Lemma one_live_recovery_per_owner_witness :
  reachable st_ready /\ active (recoveryRequests st_ready 1) = true /\
  initiateRecovery (at_ G3 200) O G_NA st_ready = Revert RecoveryAlreadyActive /\
  Orchestrator.oreachable OrchestratorScenarios.o_s3 /\
  (Orchestrator.count_active "0xowner"
     (Orchestrator.sessions OrchestratorScenarios.o_s3) <= 1)%nat /\
  Orchestrator.initiateRecovery OrchestratorScenarios.gm_demo 5 "sid2" "0xOWNER" "0xOTHER"
    OrchestratorScenarios.o_s3 =
    Orchestrator.OThrow "Recovery already in progress. Cancel existing session first.".
Proof.
  destruct one_live_recovery_per_owner as (_ & _ & P3 & P4 & _ & P6 & _).
  assert (Ha : active (recoveryRequests st_ready 1) = true) by (vm_compute; reflexivity).
  assert (Ho : Orchestrator.oreachable OrchestratorScenarios.o_s3).
  { unfold OrchestratorScenarios.o_s3, OrchestratorScenarios.o_s2,
      OrchestratorScenarios.o_s1, OrchestratorScenarios.o_step.
    repeat apply Orchestrator.oreach_step. apply Orchestrator.oreach_init. }
  split; [exact st_ready_reachable|]. split; [exact Ha|].
  split; [exact (P3 st_ready 1 (at_ G3 200) G_NA st_ready_reachable Ha
                   ltac:(discriminate) ltac:(discriminate))|].
  split; [exact Ho|]. split; [exact (P4 _ Ho "0xowner"%string)|].
  apply (P6 _ _ _ _ _ _
           (Orchestrator.mkSession "sid" "0xowner" "0xnew" Orchestrator.ready 2 ["g1"%string; "g2"%string] 0
              Orchestrator.RECOVERY_DELAY_MS None None) 2).
  - vm_compute. reflexivity.
  - discriminate.
  - discriminate.
  - vm_compute. discriminate.
  - reflexivity.
  - reflexivity.
Defined.

(** C3 counterexample.  Request 1 of [O] is live, yet [initiateRecovery]
    by the guardian [G3] for [O] with [newOwner = O] reverts with
    [InvalidAddress], not [RecoveryAlreadyActive]. *)
Lemma already_active_precedence_example :
  reachable st_ready /\ active (recoveryRequests st_ready 1) = true /\
  req_owner (recoveryRequests st_ready 1) = O /\
  initiateRecovery (at_ G3 200) O O st_ready = Revert InvalidAddress.
Proof.
  split; [exact st_ready_reachable|]. vm_compute. repeat split.
Qed.

End OwnerClaims.

Module LedgerExtras.
Import SovSealRecovery LedgerInvariants LedgerProofs LedgerScenarios LedgerClaims.

(** *** [getGuardians] *)

Lemma activeCount_loop_spec l n :
  activeCount_loop l n = (n + List.length (filter isActive l))%nat.
Proof.
  revert n. induction l as [|g l IH]; intros n; simpl; [lia|].
  rewrite IH. destruct (isActive g); simpl; lia.
Qed.

Lemma store_at_app p z t g :
  store_at (p ++ z :: t) (List.length p) g = Some (p ++ g :: t).
Proof.
  induction p as [|x p IH]; simpl; [reflexivity|]. now rewrite IH.
Qed.

Lemma fill_loop_spec l p :
  fill_loop l (p ++ repeat zero_guardian (List.length (filter isActive l))) (List.length p) =
  Some (p ++ filter isActive l).
Proof.
  revert p. induction l as [|g l IH]; intros p; simpl; [reflexivity|].
  destruct (isActive g); simpl; [|apply IH].
  rewrite store_at_app.
  replace (p ++ g :: repeat zero_guardian (List.length (filter isActive l)))
    with ((p ++ [g]) ++ repeat zero_guardian (List.length (filter isActive l)))
    by now rewrite <- app_assoc.
  replace (S (List.length p)) with (List.length (p ++ [g])) by (rewrite length_app; simpl; lia).
  rewrite IH. now rewrite <- app_assoc.
Qed.

(** *** Request slots *)

(** How one transaction can change a written request slot. *)
Lemma slot_tx st st' id :
  Inv st -> req_owner (recoveryRequests st id) <> 0 -> tx st st' ->
  recoveryRequests st' id = recoveryRequests st id \/
  (req_executed (recoveryRequests st id) = false /\
   req_cancelled (recoveryRequests st id) = false /\
   ((exists g aw, recoveryRequests st' id = with_approval (recoveryRequests st id) g aw) \/
    recoveryRequests st' id = with_executed (recoveryRequests st id) \/
    recoveryRequests st' id = with_cancelled (recoveryRequests st id))).
Proof.
  intros (H0 & H1 & H2) Ho Htx. destruct Htx as [env c st st' _ Hs].
  destruct c; simpl in Hs.
  - left. now destruct (addGuardian_frame _ _ _ _ _ Hs) as (-> & _).
  - left. now destruct (removeGuardian_frame _ _ _ _ Hs) as (-> & _).
  - left. now destruct (setThreshold_frame _ _ _ _ Hs) as (-> & _).
  - left. unfold bind in Hs.
    destruct (initiateRecovery env owner newOwner st) as [[s i]|] eqn:Ei; try discriminate.
    injection Hs as <-.
    unfold initiateRecovery, bind, checked_add in Ei. break_ifs Ei. injection Ei as <- <-.
    unfold set_active, set_request, set_count, upd; simpl.
    specialize (H1 id Ho). destruct (Z.eqb_spec id (recoveryCount st + 1)); [lia|reflexivity].
  - unfold approveRecovery, bind, checked_add in Hs. break_ifs Hs. injection Hs as <-.
    unfold set_request, upd; simpl.
    destruct (Z.eqb_spec id requestId) as [->|]; [|left; reflexivity].
    right. split; [assumption|]. split; [assumption|]. left. eauto.
  - destruct (executeRecovery_effect _ _ _ _ Hs) as (_ & He & Hc & _ & _ & _ & ->).
    unfold set_threshold, set_guardians, set_active, set_request, upd; simpl.
    destruct (Z.eqb_spec id requestId) as [->|]; [|left; reflexivity].
    right. split; [exact He|]. split; [exact Hc|]. right; left; reflexivity.
  - unfold cancelRecovery in Hs. break_ifs Hs. injection Hs as <-.
    unfold set_active, set_request, upd; simpl.
    destruct (Z.eqb_spec id requestId) as [->|]; [|left; reflexivity].
    right. split; [assumption|]. split; [assumption|]. right; right; reflexivity.
Qed.

Lemma executed_request_frozen_txs s1 s2 id :
  txs s1 s2 -> Inv s1 -> req_owner (recoveryRequests s1 id) <> 0 ->
  req_executed (recoveryRequests s1 id) = true ->
  recoveryRequests s2 id = recoveryRequests s1 id.
Proof.
  induction 1 as [s|s s' s'' Ht Hts IH]; intros HI Ho He; [reflexivity|].
  assert (Heq : recoveryRequests s' id = recoveryRequests s id)
    by (destruct (slot_tx _ _ id HI Ho Ht) as [H|(H & _)]; [exact H|congruence]).
  rewrite <- Heq. apply IH; [eapply Inv_tx; eauto|rewrite Heq; auto|rewrite Heq; auto].
Qed.

(** A guardian's approval mark and the request's owner survive every
    transaction. *)
Lemma approved_txs s1 s2 id a :
  txs s1 s2 -> Inv s1 -> req_owner (recoveryRequests s1 id) <> 0 ->
  req_hasApproved (recoveryRequests s1 id) a = true ->
  req_owner (recoveryRequests s2 id) = req_owner (recoveryRequests s1 id) /\
  req_hasApproved (recoveryRequests s2 id) a = true.
Proof.
  induction 1 as [s|s s' s'' Ht Hts IH]; intros HI Ho Ha; [auto|].
  assert (Hs' : req_owner (recoveryRequests s' id) = req_owner (recoveryRequests s id) /\
                req_hasApproved (recoveryRequests s' id) a = true).
  { destruct (slot_tx _ _ id HI Ho Ht) as [->|(_ & _ & [(g & aw & ->)|[->| ->]])];
      simpl; auto.
    split; [reflexivity|]. unfold upd. destruct (a =? g); auto. }
  destruct Hs' as [Ho' Ha']. rewrite <- Ho'.
  apply IH; [eapply Inv_tx; eauto|congruence|exact Ha'].
Qed.

(** The invariant [RInv]. *)
Lemma RInv_init : RInv init_state.
Proof. intros id; simpl. split; [reflexivity|]. intros H. now contradiction H. Qed.

Lemma RInv_requests st st' :
  recoveryRequests st' = recoveryRequests st -> RInv st -> RInv st'.
Proof. intros HR. unfold RInv. now rewrite HR. Qed.

Lemma RInv_set st id r' :
  RInv st -> req_owner r' <> 0 ->
  req_executeAfter r' = req_initiatedAt r' + RECOVERY_DELAY ->
  MIN_THRESHOLD <= req_threshold r' -> RInv (set_request st id r').
Proof.
  intros HR Ho He Ht j. unfold set_request, upd; simpl.
  destruct (Z.eqb_spec j id); [|apply HR]. split; [intros; contradiction|auto].
Qed.

Lemma RInv_tx st st' : RInv st -> tx st st' -> RInv st'.
Proof.
  intros HR Htx. destruct Htx as [env c st st' Hv Hs].
  destruct c; simpl in Hs.
  - exact (RInv_requests _ _ (proj1 (addGuardian_frame _ _ _ _ _ Hs)) HR).
  - exact (RInv_requests _ _ (proj1 (removeGuardian_frame _ _ _ _ Hs)) HR).
  - exact (RInv_requests _ _ (proj1 (setThreshold_frame _ _ _ _ Hs)) HR).
  - unfold bind in Hs.
    destruct (initiateRecovery env owner newOwner st) as [[s i]|] eqn:Ei; try discriminate.
    injection Hs as <-.
    unfold initiateRecovery, bind, checked_add in Ei. break_ifs Ei. injection Ei as <- <-.
    eapply RInv_requests; [|apply (RInv_set (set_count st (recoveryCount st + 1)))];
      [reflexivity|exact HR|simpl..].
    + now apply Z.eqb_neq in E.
    + reflexivity.
    + now apply Z.ltb_ge in E4.
  - unfold approveRecovery, bind, checked_add in Hs. break_ifs Hs. injection Hs as <-.
    apply Z.eqb_neq in E. destruct (proj2 (HR requestId) E) as [He Ht].
    apply RInv_set; simpl; auto.
  - destruct (executeRecovery_effect _ _ _ _ Hs) as (Ho & _ & _ & _ & _ & _ & ->).
    destruct (proj2 (HR requestId) Ho) as [He Ht].
    apply (RInv_requests (set_request st requestId (with_executed (recoveryRequests st requestId))));
      [reflexivity|]. apply RInv_set; simpl; auto.
  - unfold cancelRecovery in Hs. break_ifs Hs. injection Hs as <-.
    apply Z.eqb_neq in E. destruct (proj2 (HR requestId) E) as [He Ht].
    apply (RInv_requests (set_request st requestId (with_cancelled (recoveryRequests st requestId))));
      [reflexivity|]. apply RInv_set; simpl; auto.
Qed.

Lemma RInv_reachable st : reachable st -> RInv st.
Proof. induction 1; [exact RInv_init|eapply RInv_tx; eauto]. Qed.

(** *** Guardian entries *)

Lemma deactivate_first_entries g l x :
  In x (fst (deactivate_first g l)) ->
  exists y, In y l /\ addr y = addr x /\ weight y = weight x.
Proof.
  induction l as [|y l IH]; simpl; [tauto|].
  destruct (matches g y); simpl.
  - intros [<-|Hx]; [exists y; auto|exists x; auto].
  - destruct (deactivate_first g l) as [l' f] eqn:E; simpl in *.
    intros [<-|Hx]; [exists y; auto|]. destruct (IH Hx) as (z & Hz & Ha & Hw). exists z; auto.
Qed.

Lemma GInv_tx st st' : GInv st -> tx st st' -> GInv st'.
Proof.
  intros HG Htx. destruct Htx as [env c st st' Hv Hs].
  destruct c; simpl in Hs, Hv.
  - unfold addGuardian in Hs. break_ifs Hs. injection Hs as <-.
    intros o g. unfold set_guardians, upd; simpl.
    destruct (Z.eqb_spec o (msg_sender env)); [|apply HG].
    rewrite in_app_iff. intros [Hg|[<-|[]]]; [eapply HG; eauto|simpl].
    assert (Hw : is_uint256 weight0 = true)
      by (unfold valid_call in Hv; rewrite !andb_true_iff in Hv; tauto).
    unfold is_uint256 in Hw. apply andb_true_iff in Hw as [Hw1 Hw2].
    apply Z.leb_le in Hw1. apply Z.ltb_lt in Hw2.
    apply Z.eqb_neq in E. apply Z.eqb_neq in E2. split; [exact E|lia].
  - unfold removeGuardian in Hs.
    destruct (deactivate_first guardian (guardians st (msg_sender env))) as [l' f] eqn:E.
    break_ifs Hs. injection Hs as <-.
    intros o g. unfold set_guardians, upd; simpl.
    destruct (Z.eqb_spec o (msg_sender env)); [|apply HG].
    intros Hg. assert (Hg' : In g (fst (deactivate_first guardian (guardians st (msg_sender env)))))
      by now rewrite E.
    destruct (deactivate_first_entries _ _ _ Hg') as (y & Hy & <- & <-).
    eapply HG; eauto.
  - intros o g. rewrite (setThreshold_guardians _ _ _ _ Hs). apply HG.
  - unfold bind in Hs. destruct (initiateRecovery env owner newOwner st) as [[s i]|] eqn:Ei;
      try discriminate. injection Hs as <-. intros o g.
    rewrite (initiate_guardians _ _ _ _ _ _ Ei). apply HG.
  - intros o g. rewrite (approve_guardians _ _ _ _ Hs). apply HG.
  - apply executeRecovery_effect in Hs. destruct Hs as (_ & _ & _ & _ & _ & _ & ->).
    intros o g. unfold set_threshold, set_guardians, set_active, set_request, upd; simpl.
    destruct (Z.eqb_spec o (req_newOwner (recoveryRequests st requestId))); [|apply HG].
    rewrite in_app_iff, filter_In. intros [Hg|[Hg _]]; eapply HG; eauto.
  - intros o g. rewrite (cancel_guardians _ _ _ _ Hs). apply HG.
Qed.

Lemma GInv_reachable st : reachable st -> GInv st.
Proof. induction 1; [intros o g []|eapply GInv_tx; eauto]. Qed.

Lemma guardian_weight_loop_found a l :
  existsb (matches a) l = true -> exists g, In g l /\ guardian_weight_loop a l = weight g.
Proof.
  induction l as [|g l IH]; simpl; [discriminate|].
  destruct (matches a g); simpl; intros H; [exists g; auto|].
  destruct (IH H) as (x & Hx & Hw). exists x; auto.
Qed.

Lemma guardian_weight_loop_absent a l :
  existsb (matches a) l = false -> guardian_weight_loop a l = 0.
Proof.
  induction l as [|g l IH]; simpl; [reflexivity|].
  destruct (matches a g); simpl; [discriminate|exact IH].
Qed.

Lemma existsb_matches_filter a l :
  existsb (matches a) (filter isActive l) = existsb (matches a) l.
Proof.
  induction l as [|g l IH]; simpl; [reflexivity|].
  destruct (isActive g) eqn:E; simpl; rewrite IH; [reflexivity|].
  unfold matches. now rewrite E, andb_false_r.
Qed.

(** *** [removeGuardian] on a list without duplicate active entries *)

Lemma existsb_deactivate a g l :
  existsb (matches a) (fst (deactivate_first g l)) = true -> existsb (matches a) l = true.
Proof.
  induction l as [|x l IH]; simpl; [discriminate|].
  destruct (matches g x); simpl.
  - unfold matches at 1. simpl. rewrite andb_false_r. simpl. intros ->. apply orb_true_r.
  - destruct (deactivate_first g l) as [l' f]; simpl in *.
    destruct (matches a x); simpl; auto.
Qed.

Lemma filter_not_addr a l :
  existsb (matches a) l = false ->
  filter (fun x => negb (addr x =? a)) (filter isActive l) = filter isActive l.
Proof.
  induction l as [|x l IH]; simpl; [reflexivity|].
  unfold matches at 1. destruct (isActive x) eqn:Ea; simpl; rewrite ?andb_true_r, ?andb_false_r.
  - destruct (addr x =? a); simpl; [discriminate|]. intros H. now rewrite IH.
  - apply IH.
Qed.

Lemma deactivate_first_nodup g l l' :
  nodup_active l = true -> deactivate_first g l = (l', true) ->
  filter isActive l' = filter (fun x => negb (addr x =? g)) (filter isActive l) /\
  existsb (matches g) l' = false /\ nodup_active l' = true.
Proof.
  revert l'. induction l as [|x l IH]; intros l' Hn Hd; simpl in *; [discriminate|].
  apply andb_true_iff in Hn as [Hx Hn].
  destruct (matches g x) eqn:Em.
  - injection Hd as <-. unfold matches in Em. apply andb_true_iff in Em as [Ea Ei].
    apply Z.eqb_eq in Ea. rewrite Ei in Hx |- *. simpl in Hx |- *.
    apply negb_true_iff in Hx. rewrite Ea in Hx.
    rewrite Ea, Z.eqb_refl. simpl. split; [symmetry; now apply filter_not_addr|].
    split; [unfold matches at 1; simpl; now rewrite andb_false_r|exact Hn].
  - destruct (deactivate_first g l) as [t f] eqn:Et. injection Hd as <- ->.
    destruct (IH t Hn eq_refl) as (Hf & He & Hnt).
    simpl. rewrite Em, He. split; [|split; [reflexivity|]].
    + destruct (isActive x) eqn:Ea; simpl; [|exact Hf].
      unfold matches in Em. rewrite Ea, andb_true_r in Em. rewrite Em. simpl. now rewrite Hf.
    + rewrite Hnt, andb_true_r. destruct (isActive x); simpl in *; [|reflexivity].
      destruct (existsb (matches (addr x)) t) eqn:Ex; [|reflexivity].
      assert (Hc : existsb (matches (addr x)) l = true).
      { apply (existsb_deactivate _ g). now rewrite Et. }
      rewrite Hc in Hx. discriminate.
Qed.

Lemma guardian_weight_loop_app a l t :
  existsb (matches a) l = false -> guardian_weight_loop a (l ++ t) = guardian_weight_loop a t.
Proof.
  induction l as [|g l IH]; simpl; [reflexivity|].
  destruct (matches a g); simpl; [discriminate|exact IH].
Qed.

(** *** Properties *)

(** [getGuardians] as written, with its counting loop and its copying loop
    into a memory array, never indexes out of range and returns exactly the
    owner's active entries, in storage order. *)
Theorem getGuardians_loops_spec st owner :
  getGuardians_loops st owner = Some (getGuardians st owner).
Proof.
  unfold getGuardians_loops, getGuardians. rewrite activeCount_loop_spec. simpl.
  exact (fill_loop_spec (guardians st owner) []).
Qed.

(** In every reachable state, a successful [executeRecovery] happens at
    least [RECOVERY_DELAY] (seven days) after the request was initiated, and
    the request has collected an approval weight of at least
    [MIN_THRESHOLD] (2). *)
Theorem executeRecovery_after_delay env id st st' :
  reachable st -> executeRecovery env id st = Ok st' ->
  req_initiatedAt (recoveryRequests st id) + RECOVERY_DELAY <= block_timestamp env /\
  MIN_THRESHOLD <= req_approvalWeight (recoveryRequests st id).
Proof.
  intros Hr Hx. destruct (executeRecovery_effect _ _ _ _ Hx) as (Ho & _ & _ & Ht & Hw & _).
  destruct (proj2 (RInv_reachable _ Hr id) Ho) as [He Hth]. lia.
Qed.

Lemma executeRecovery_after_delay_witness :
  reachable st_ready /\
  executeRecovery (at_ O t_exec) 1 st_ready = Ok st_done /\
  req_initiatedAt (recoveryRequests st_ready 1) + RECOVERY_DELAY <= t_exec /\
  MIN_THRESHOLD <= req_approvalWeight (recoveryRequests st_ready 1).
Proof.
  split; [exact st_ready_reachable|]. split; [exact st_ready_exec|].
  exact (executeRecovery_after_delay (at_ O t_exec) 1 st_ready st_done
           st_ready_reachable st_ready_exec).
Defined.

(** On the ledger, once [executeRecovery] succeeds on a request, every later
    [approveRecovery], [executeRecovery] or [cancelRecovery] of that request
    reverts with [RecoveryAlreadyExecuted], whatever transactions come in
    between. *)
Theorem ledger_executed_final st st' st'' env id :
  reachable st -> executeRecovery env id st = Ok st' -> txs st' st'' ->
  forall env', approveRecovery env' id st'' = Revert RecoveryAlreadyExecuted /\
               executeRecovery env' id st'' = Revert RecoveryAlreadyExecuted /\
               cancelRecovery env' id st'' = Revert RecoveryAlreadyExecuted.
Proof.
  intros Hr Hx Hs env'.
  pose proof (Inv_reachable _ Hr) as HI.
  pose proof (Inv_execute _ _ _ _ HI Hx) as HI'.
  destruct (executeRecovery_effect _ _ _ _ Hx) as (Ho & _ & _ & _ & _ & _ & Hst).
  assert (Hid : recoveryRequests st' id = with_executed (recoveryRequests st id))
    by (rewrite Hst; unfold set_threshold, set_guardians, set_active, set_request; simpl;
        apply upd_same).
  pose proof (executed_request_frozen_txs _ _ id Hs HI') as Hf.
  rewrite Hid in Hf. specialize (Hf Ho eq_refl).
  unfold approveRecovery, executeRecovery, cancelRecovery. rewrite Hf. simpl.
  destruct (Z.eqb_spec (req_owner (recoveryRequests st id)) 0); [contradiction|].
  split; [|split]; reflexivity.
Qed.

Lemma ledger_executed_final_witness :
  reachable st_ready /\
  executeRecovery (at_ O t_exec) 1 st_ready = Ok st_done /\
  cancelRecovery (at_ O (t_exec + 1)) 1 st_done = Revert RecoveryAlreadyExecuted.
Proof.
  split; [exact st_ready_reachable|]. split; [exact st_ready_exec|].
  exact (proj2 (proj2 (ledger_executed_final _ _ _ _ _ st_ready_reachable st_ready_exec
                         (txs_refl _) (at_ O (t_exec + 1))))).
Defined.

(** In every reachable state, a successful [approveRecovery] comes from an
    active guardian of the owner on a live request that guardian had not yet
    approved; it marks the guardian as having approved and adds its weight,
    which is at least 1, to the approval weight; no other request changes. *)
Theorem approveRecovery_effect env id st st' :
  reachable st -> approveRecovery env id st = Ok st' ->
  active (recoveryRequests st id) = true /\
  req_hasApproved (recoveryRequests st id) (msg_sender env) = false /\
  _isGuardian st (req_owner (recoveryRequests st id)) (msg_sender env) = true /\
  1 <= _getGuardianWeight st (req_owner (recoveryRequests st id)) (msg_sender env) /\
  recoveryRequests st' id =
    with_approval (recoveryRequests st id) (msg_sender env)
      (req_approvalWeight (recoveryRequests st id) +
       _getGuardianWeight st (req_owner (recoveryRequests st id)) (msg_sender env)) /\
  req_hasApproved (recoveryRequests st' id) (msg_sender env) = true /\
  (forall j, j <> id -> recoveryRequests st' j = recoveryRequests st j).
Proof.
  intros Hr H. pose proof (GInv_reachable _ Hr) as HG.
  unfold approveRecovery, bind, checked_add in H. break_ifs H. injection H as <-.
  apply negb_false_iff in E3.
  split; [unfold active; now rewrite E, E0, E1|].
  split; [auto|]. split; [auto|].
  split.
  { destruct (guardian_weight_loop_found _ _ E3) as (g & Hg & Hw).
    unfold _getGuardianWeight. rewrite Hw. apply (HG _ g Hg). }
  unfold set_request; simpl. rewrite !upd_same. split; [reflexivity|].
  split; [simpl; apply upd_same|].
  intros j Hj. now apply upd_other.
Qed.

Lemma approveRecovery_effect_witness :
  reachable st_ready /\
  approveRecovery (at_ G3 200) 1 st_ready
    = Ok (unwrap (approveRecovery (at_ G3 200) 1 st_ready)) /\
  1 <= _getGuardianWeight st_ready O G3.
Proof.
  assert (Ha : approveRecovery (at_ G3 200) 1 st_ready
               = Ok (unwrap (approveRecovery (at_ G3 200) 1 st_ready))) by reflexivity.
  split; [exact st_ready_reachable|]. split; [exact Ha|].
  exact (proj1 (proj2 (proj2 (proj2
           (approveRecovery_effect _ _ _ _ st_ready_reachable Ha))))).
Defined.

(** In every reachable state, after a guardian's [approveRecovery] succeeds,
    every later [approveRecovery] of the same request by the same address
    reverts (already approved, executed or cancelled), whatever
    transactions come in between. *)
Theorem approveRecovery_once st st' st'' env id :
  reachable st -> approveRecovery env id st = Ok st' -> txs st' st'' ->
  forall env', msg_sender env' = msg_sender env ->
  approveRecovery env' id st'' = Revert RecoveryAlreadyApproved \/
  approveRecovery env' id st'' = Revert RecoveryAlreadyExecuted \/
  approveRecovery env' id st'' = Revert RecoveryAlreadyCancelled.
Proof.
  intros Hr Ha Hs env' Hsender.
  pose proof (Inv_approve _ _ _ _ (Inv_reachable _ Hr) Ha) as HI'.
  unfold approveRecovery, bind, checked_add in Ha. break_ifs Ha. injection Ha as <-.
  apply Z.eqb_neq in E.
  destruct (approved_txs _ _ id (msg_sender env) Hs HI') as [Ho Hh];
    unfold set_request; simpl; rewrite ?upd_same; simpl; [exact E|apply upd_same|].
  assert (Ho' : req_owner (recoveryRequests st'' id) = req_owner (recoveryRequests st id))
    by (rewrite Ho; unfold set_request; simpl; now rewrite upd_same).
  unfold approveRecovery. rewrite Ho', Hsender, Hh.
  destruct (Z.eqb_spec (req_owner (recoveryRequests st id)) 0); [contradiction|].
  destruct (req_executed (recoveryRequests st'' id)); [right; left; reflexivity|].
  destruct (req_cancelled (recoveryRequests st'' id)); [right; right; reflexivity|].
  left; reflexivity.
Qed.

Lemma approveRecovery_once_witness :
  reachable st_ready /\
  approveRecovery (at_ G3 200) 1 st_ready
    = Ok (unwrap (approveRecovery (at_ G3 200) 1 st_ready)) /\
  approveRecovery (at_ G3 300) 1 (unwrap (approveRecovery (at_ G3 200) 1 st_ready))
    = Revert RecoveryAlreadyApproved.
Proof.
  assert (Ha : approveRecovery (at_ G3 200) 1 st_ready
               = Ok (unwrap (approveRecovery (at_ G3 200) 1 st_ready))) by reflexivity.
  split; [exact st_ready_reachable|]. split; [exact Ha|].
  destruct (approveRecovery_once _ _ _ _ _ st_ready_reachable Ha (txs_refl _)
              (at_ G3 300) eq_refl) as [H|[H|H]];
    [exact H|vm_compute in H; discriminate H|vm_compute in H; discriminate H].
Defined.

(** In every reachable state, a successful [initiateRecovery] takes the
    next request id [recoveryCount + 1], whose slot was never written: the
    new request starts with approval weight 0 and with no guardian marked as
    having approved, although the source does not reset the [hasApproved]
    mapping.  It records the owner's threshold and the time-lock, makes the
    request the owner's active one, and changes no other request. *)
Theorem initiateRecovery_fresh_slot env owner newOwner st st' id :
  reachable st -> initiateRecovery env owner newOwner st = Ok (st', id) ->
  id = recoveryCount st + 1 /\
  recoveryRequests st id = empty_request /\
  recoveryRequests st' id =
    mkRequest owner newOwner (thresholds st owner) 0 (block_timestamp env)
      (block_timestamp env + RECOVERY_DELAY) false false (fun _ => false) /\
  (forall j, j <> id -> recoveryRequests st' j = recoveryRequests st j) /\
  recoveryCount st' = id /\ activeRecovery st' owner = id.
Proof.
  intros Hr H. destruct (Inv_reachable _ Hr) as (H0 & H1 & _).
  pose proof (RInv_reachable _ Hr) as HR.
  unfold initiateRecovery, bind, checked_add in H. break_ifs H. injection H as <- <-.
  assert (He : recoveryRequests st (recoveryCount st + 1) = empty_request).
  { apply (proj1 (HR _)).
    destruct (Z.eqb_spec (req_owner (recoveryRequests st (recoveryCount st + 1))) 0)
      as [|Hne]; [assumption|].
    specialize (H1 _ Hne). lia. }
  split; [reflexivity|]. split; [exact He|].
  unfold set_active, set_request, set_count; simpl. rewrite !upd_same, He.
  split; [reflexivity|]. split; [intros j Hj; now apply upd_other|].
  split; reflexivity.
Qed.

Lemma st_done_reachable : reachable st_done.
Proof.
  apply (reach_tx st_ready); [exact st_ready_reachable|].
  apply (tx_ok (at_ O t_exec) (CExecuteRecovery 1)); [vm_compute; reflexivity|].
  exact st_ready_exec.
Qed.

Lemma res_ok {A} (r : res A) (d : A) :
  (match r with Ok _ => true | Revert _ => false end) = true ->
  r = Ok (match r with Ok a => a | Revert _ => d end).
Proof. destruct r; [reflexivity|discriminate]. Qed.

Lemma initiateRecovery_fresh_slot_witness :
  reachable st_done /\
  initiateRecovery (at_ G2 t_exec) O NA st_done = Ok (fst st_again, snd st_again) /\
  recoveryRequests (fst st_again) (snd st_again) =
    mkRequest O NA (thresholds st_done O) 0 t_exec (t_exec + RECOVERY_DELAY) false false
      (fun _ => false).
Proof.
  assert (Hi : initiateRecovery (at_ G2 t_exec) O NA st_done = Ok (fst st_again, snd st_again)).
  { change (fst st_again, snd st_again) with st_again.
    apply res_ok. vm_compute. reflexivity. }
  split; [exact st_done_reachable|]. split; [exact Hi|].
  exact (proj1 (proj2 (proj2 (initiateRecovery_fresh_slot _ _ _ _ _ _ st_done_reachable Hi)))).
Defined.


(** In every reachable state, every stored guardian entry, active or
    soft-deleted, has a non-zero address and a weight between 1 and
    [2^256 - 1]. *)
Theorem guardian_entries_valid st o g :
  reachable st -> In g (guardians st o) -> addr g <> 0 /\ 1 <= weight g < UINT256_BOUND.
Proof. intros Hr. exact (GInv_reachable _ Hr o g). Qed.

Lemma guardian_entries_valid_witness :
  reachable st_done /\ In (mkGuardian G1 1 true) (guardians st_done NA) /\
  G1 <> 0 /\ 1 <= 1 < UINT256_BOUND.
Proof.
  assert (Hin : In (mkGuardian G1 1 true) (guardians st_done NA))
    by (vm_compute; left; reflexivity).
  split; [exact st_done_reachable|]. split; [exact Hin|].
  exact (guardian_entries_valid _ _ _ st_done_reachable Hin).
Defined.

(** A successful [addGuardian(g, w)] appends an active entry: [g] was not an
    active guardian of the caller, it is one afterwards, at the end of the
    caller's active guardians, and [_getGuardianWeight] returns [w] for it;
    other owners' lists are unchanged. *)
Theorem addGuardian_effect env g w st st' :
  addGuardian env g w st = Ok st' ->
  _isGuardian st (msg_sender env) g = false /\
  getGuardians st' (msg_sender env) =
    getGuardians st (msg_sender env) ++ [mkGuardian g w true] /\
  _isGuardian st' (msg_sender env) g = true /\
  _getGuardianWeight st' (msg_sender env) g = w /\
  (forall o, o <> msg_sender env -> guardians st' o = guardians st o).
Proof.
  unfold addGuardian. intros H. break_ifs H. injection H as <-.
  unfold _isGuardian, getGuardians, _getGuardianWeight, set_guardians; simpl.
  rewrite !upd_same. split; [exact E3|].
  split; [now rewrite filter_app|].
  split; [rewrite existsb_app, E3; simpl; unfold matches; simpl; now rewrite Z.eqb_refl|].
  split; [rewrite guardian_weight_loop_app by exact E3; simpl;
          unfold matches; simpl; now rewrite Z.eqb_refl|].
  intros o Ho. now apply upd_other.
Qed.

Lemma addGuardian_effect_witness :
  addGuardian (at_ O 0) G1 5 init_state
    = Ok (unwrap (addGuardian (at_ O 0) G1 5 init_state)) /\
  _getGuardianWeight (unwrap (addGuardian (at_ O 0) G1 5 init_state)) O G1 = 5.
Proof.
  assert (H : addGuardian (at_ O 0) G1 5 init_state
              = Ok (unwrap (addGuardian (at_ O 0) G1 5 init_state))) by reflexivity.
  split; [exact H|].
  exact (proj1 (proj2 (proj2 (proj2 (addGuardian_effect _ _ _ _ _ H))))).
Defined.

(** When the caller's stored list has no two active entries with the same
    address, a successful [removeGuardian(g)] removes exactly [g] from the
    caller's active guardians: [_isGuardian] is then false for [g], its
    [_getGuardianWeight] is 0, and the list still has no such duplicates. *)
Theorem removeGuardian_effect env g st st' :
  nodup_active (guardians st (msg_sender env)) = true ->
  removeGuardian env g st = Ok st' ->
  getGuardians st' (msg_sender env) =
    filter (fun x => negb (addr x =? g)) (getGuardians st (msg_sender env)) /\
  _isGuardian st' (msg_sender env) g = false /\
  _getGuardianWeight st' (msg_sender env) g = 0 /\
  nodup_active (guardians st' (msg_sender env)) = true /\
  (forall o, o <> msg_sender env -> guardians st' o = guardians st o).
Proof.
  intros Hn. unfold removeGuardian. cbv zeta.
  destruct (deactivate_first g (guardians st (msg_sender env))) as [l' f] eqn:Ed.
  intros H. break_ifs H. injection H as <-.
  apply negb_false_iff in E. subst f.
  destruct (deactivate_first_nodup _ _ _ Hn Ed) as (Hf & He & Hn').
  unfold _isGuardian, getGuardians, _getGuardianWeight, set_guardians; simpl.
  rewrite !upd_same. split; [exact Hf|]. split; [exact He|].
  split; [now apply guardian_weight_loop_absent|]. split; [exact Hn'|].
  intros o Ho. now apply upd_other.
Qed.

Lemma removeGuardian_effect_witness :
  nodup_active (guardians st_ready O) = true /\
  removeGuardian (at_ O 200) G3 st_ready
    = Ok (unwrap (removeGuardian (at_ O 200) G3 st_ready)) /\
  _isGuardian (unwrap (removeGuardian (at_ O 200) G3 st_ready)) O G3 = false.
Proof.
  assert (Hn : nodup_active (guardians st_ready O) = true) by (vm_compute; reflexivity).
  assert (H : removeGuardian (at_ O 200) G3 st_ready
              = Ok (unwrap (removeGuardian (at_ O 200) G3 st_ready))) by reflexivity.
  split; [exact Hn|]. split; [exact H|].
  exact (proj1 (proj2 (removeGuardian_effect (at_ O 200) G3 _ _ Hn H))).
Defined.

(** [addGuardian] never makes the caller its own guardian, but
    [executeRecovery] can: when the new owner is an active guardian of the
    old owner, it is an active guardian of itself afterwards. *)
Theorem executeRecovery_self_guardian :
  (forall env g w st st', addGuardian env g w st = Ok st' ->
     _isGuardian st' (msg_sender env) (msg_sender env) =
       _isGuardian st (msg_sender env) (msg_sender env)) /\
  (forall env id st st', executeRecovery env id st = Ok st' ->
     _isGuardian st (req_owner (recoveryRequests st id)) (req_newOwner (recoveryRequests st id))
       = true ->
     _isGuardian st' (req_newOwner (recoveryRequests st id)) (req_newOwner (recoveryRequests st id))
       = true).
Proof.
  split.
  - intros env g w st st' H. unfold addGuardian in H. break_ifs H. injection H as <-.
    unfold _isGuardian, set_guardians; simpl. rewrite upd_same, existsb_app. simpl.
    unfold matches at 2. simpl. rewrite E0. simpl. now rewrite !orb_false_r.
  - intros env id st st' H Hg.
    destruct (executeRecovery_effect _ _ _ _ H) as (_ & _ & _ & _ & _ & _ & ->).
    unfold _isGuardian in *. unfold set_threshold, set_guardians; simpl.
    rewrite upd_same, existsb_app, existsb_matches_filter, Hg. apply orb_true_r.
Qed.

Lemma executeRecovery_self_guardian_witness :
  _isGuardian st_self_ready O NA = true /\
  executeRecovery (at_ O t_exec) 1 st_self_ready
    = Ok (unwrap (executeRecovery (at_ O t_exec) 1 st_self_ready)) /\
  _isGuardian (unwrap (executeRecovery (at_ O t_exec) 1 st_self_ready)) NA NA = true.
Proof.
  assert (Hg : _isGuardian st_self_ready O NA = true) by (vm_compute; reflexivity).
  assert (H : executeRecovery (at_ O t_exec) 1 st_self_ready
              = Ok (unwrap (executeRecovery (at_ O t_exec) 1 st_self_ready)))
    by (apply (res_ok _ init_state); vm_compute; reflexivity).
  split; [exact Hg|]. split; [exact H|].
  exact (proj2 executeRecovery_self_guardian _ _ _ _ H Hg).
Defined.

End LedgerExtras.

Module ShamirExtras.
Import ShamirService.

Lemma first_invalid_none_iff i l :
  first_invalid i l = None <-> Forall (fun s => isValidShare s = true) l.
Proof.
  revert i. induction l as [|x l IH]; intros i; simpl.
  - split; auto.
  - destruct (isValidShare x) eqn:E.
    + rewrite IH. split; [intros H; now constructor|intros H; now inversion H].
    + split; [discriminate|intros H; inversion H; congruence].
Qed.

Lemma first_invalid_some_iff i l k :
  first_invalid i l = Some k <->
  exists n s, k = i + Z.of_nat n /\ nth_error l n = Some s /\ isValidShare s = false /\
    forall j t, (j < n)%nat -> nth_error l j = Some t -> isValidShare t = true.
Proof.
  revert i. induction l as [|x l IH]; intros i; simpl.
  - split; [discriminate|]. intros (n & s & _ & Hn & _). destruct n; discriminate.
  - destruct (isValidShare x) eqn:E.
    + rewrite IH. split.
      * intros (n & s & -> & Hn & Hs & Hb). exists (S n), s.
        split; [lia|]. split; [exact Hn|]. split; [exact Hs|].
        intros [|j] t Hj Ht; simpl in Ht; [congruence|]. apply (Hb j t); [lia|exact Ht].
      * intros (n & s & -> & Hn & Hs & Hb). destruct n as [|n]; simpl in Hn; [congruence|].
        exists n, s. split; [lia|]. split; [exact Hn|]. split; [exact Hs|].
        intros j t Hj Ht. apply (Hb (S j) t); [lia|exact Ht].
    + split.
      * intros H. injection H as <-. exists O, x. split; [lia|]. split; [reflexivity|].
        split; [exact E|]. intros j t Hj. lia.
      * intros (n & s & -> & Hn & Hs & Hb). destruct n as [|n]; [f_equal; lia|].
        specialize (Hb O x ltac:(lia) eq_refl). congruence.
Qed.

Lemma validateSplitParams_none secret threshold totalShares :
  validateSplitParams secret threshold totalShares = None <->
  secret <> [] /\ MIN_THRESHOLD <= threshold <= totalShares /\ totalShares <= MAX_SHARES.
Proof.
  unfold validateSplitParams.
  destruct secret as [|b secret]; simpl; [split; [discriminate|intros (H & _); congruence]|].
  destruct (Z.ltb_spec threshold MIN_THRESHOLD); [split; [discriminate|lia]|].
  destruct (Z.ltb_spec MAX_SHARES totalShares); [split; [discriminate|lia]|].
  destruct (Z.ltb_spec totalShares threshold); [split; [discriminate|lia]|].
  split; [|reflexivity]. intros _. split; [discriminate|lia].
Qed.

Lemma combineShares_ok_inv combine shs secret :
  combineShares combine shs = ROk secret ->
  (2 <= List.length shs)%nat /\ Forall (fun s => isValidShare s = true) shs /\
  combine shs = Done secret.
Proof.
  unfold combineShares. intros H.
  destruct shs as [|s1 [|s2 rest]]; [discriminate H|discriminate H|].
  destruct (Z.ltb_spec (Z.of_nat (List.length (s1 :: s2 :: rest))) MIN_THRESHOLD);
    [discriminate H|].
  destruct (first_invalid 0 (s1 :: s2 :: rest)) eqn:Ef; [discriminate H|].
  destruct (combine (s1 :: s2 :: rest)) eqn:Ec; [|discriminate H].
  injection H as ->. split; [simpl; lia|]. split; [|reflexivity].
  now apply (first_invalid_none_iff 0).
Qed.

Lemma validateSplitParams_invalid secret threshold totalShares e :
  validateSplitParams secret threshold totalShares = Some e -> invalid_input e = true.
Proof.
  unfold validateSplitParams.
  repeat match goal with |- context [if ?c then _ else _] => destruct c end;
    intros H; try discriminate H; injection H as <-; reflexivity.
Qed.

(** *** Properties *)

(** [combineShares], whatever the library's [combine] does: it fails with
    [NoSharesProvided] exactly on no shares, with [TooFewShares 1] exactly on
    one share, with [InvalidShareFormat i] exactly when [i] is the position
    of the first share that [isValidShare] rejects, with
    [ReconstructFailed m] exactly when every share is well formed and
    [combine] throws [m]; it returns [secret] exactly when there are at
    least two shares, all well formed, and [combine] returns [secret]. *)
Theorem combineShares_spec combine shs :
  (combineShares combine shs = RErr NoSharesProvided <-> shs = []) /\
  (forall n, combineShares combine shs = RErr (TooFewShares n) <->
     List.length shs = 1%nat /\ n = 1) /\
  (forall i, combineShares combine shs = RErr (InvalidShareFormat i) <->
     (2 <= List.length shs)%nat /\
     exists k s, i = Z.of_nat k /\ nth_error shs k = Some s /\ isValidShare s = false /\
       forall j t, (j < k)%nat -> nth_error shs j = Some t -> isValidShare t = true) /\
  (forall m, combineShares combine shs = RErr (ReconstructFailed m) <->
     (2 <= List.length shs)%nat /\ Forall (fun s => isValidShare s = true) shs /\
     combine shs = Thrown m) /\
  (forall secret, combineShares combine shs = ROk secret <->
     (2 <= List.length shs)%nat /\ Forall (fun s => isValidShare s = true) shs /\
     combine shs = Done secret).
Proof.
  destruct shs as [|s1 [|s2 rest]].
  - assert (Hc : combineShares combine [] = RErr NoSharesProvided) by reflexivity.
    rewrite Hc. split; [split; reflexivity|].
    split; [intros n; split; [discriminate|intros (Hl & _); simpl in Hl; lia]|].
    split; [intros i; split; [discriminate|intros (Hl & _); simpl in Hl; lia]|].
    split; [intros m; split; [discriminate|intros (Hl & _); simpl in Hl; lia]|].
    intros secret; split; [discriminate|intros (Hl & _); simpl in Hl; lia].
  - assert (Hc : combineShares combine [s1] = RErr (TooFewShares 1)) by reflexivity.
    rewrite Hc. split; [split; discriminate|].
    split; [intros n; split; [intros H; injection H as <-; auto|intros (_ & ->); reflexivity]|].
    split; [intros i; split; [discriminate|intros (Hl & _); simpl in Hl; lia]|].
    split; [intros m; split; [discriminate|intros (Hl & _); simpl in Hl; lia]|].
    intros secret; split; [discriminate|intros (Hl & _); simpl in Hl; lia].
  - set (L := s1 :: s2 :: rest).
    assert (HL : (2 <= List.length L)%nat) by (simpl; lia).
    assert (Hc : combineShares combine L =
                 match first_invalid 0 L with
                 | Some i => RErr (InvalidShareFormat i)
                 | None => match combine L with
                           | Done secret => ROk secret
                           | Thrown m => RErr (ReconstructFailed m)
                           end
                 end).
    { unfold combineShares. destruct (Nat.eqb_spec (List.length L) 0); [lia|].
      destruct (Z.ltb_spec (Z.of_nat (List.length L)) MIN_THRESHOLD);
        [unfold MIN_THRESHOLD in *; lia|reflexivity]. }
    rewrite Hc.
    assert (Hnil : L <> []) by discriminate.
    assert (Hlen1 : List.length L <> 1%nat) by (simpl; lia).
    destruct (first_invalid 0 L) as [k|] eqn:Ef.
    + split; [split; [discriminate|intros H; contradiction]|].
      split; [intros n; split; [discriminate|intros (Hl & _); contradiction]|].
      split; [intros i; split|].
      * intros H. injection H as <-. split; [exact HL|].
        apply first_invalid_some_iff in Ef. destruct Ef as (n & s & -> & Hn & Hs & Hb).
        exists n, s. split; [lia|]. auto.
      * intros (_ & n & s & -> & Hn & Hs & Hb).
        assert (Hf : first_invalid 0 L = Some (0 + Z.of_nat n))
          by (apply first_invalid_some_iff; exists n, s; auto).
        rewrite Ef in Hf. injection Hf as ->. reflexivity.
      * split; [intros m; split; [discriminate|intros (_ & Hall & _)]
               |intros secret; split; [discriminate|intros (_ & Hall & _)]];
          apply (first_invalid_none_iff 0) in Hall; congruence.
    + pose proof (proj1 (first_invalid_none_iff 0 L) Ef) as Hall.
      assert (Hno : forall k s, nth_error L k = Some s -> isValidShare s = false -> False).
      { intros k s Hk Hs. rewrite Forall_forall in Hall.
        rewrite (Hall s (nth_error_In _ _ Hk)) in Hs. discriminate. }
      destruct (combine L) as [secret0|m0] eqn:Ec.
      * split; [split; [discriminate|intros H; contradiction]|].
        split; [intros n; split; [discriminate|intros (Hl & _); contradiction]|].
        split; [intros i; split; [discriminate|intros (_ & k & s & _ & Hk & Hs & _);
                                               destruct (Hno k s Hk Hs)]|].
        split; [intros m; split; [discriminate|intros (_ & _ & H); discriminate H]|].
        intros secret; split; [intros H; injection H as <-; auto|].
        intros (_ & _ & H). injection H as ->. reflexivity.
      * split; [split; [discriminate|intros H; contradiction]|].
        split; [intros n; split; [discriminate|intros (Hl & _); contradiction]|].
        split; [intros i; split; [discriminate|intros (_ & k & s & _ & Hk & Hs & _);
                                               destruct (Hno k s Hk Hs)]|].
        split; [intros m; split; [intros H; injection H as <-; auto|]|].
        -- intros (_ & _ & H). injection H as ->. reflexivity.
        -- intros secret; split; [discriminate|intros (_ & _ & H); discriminate H].
Qed.

(** [splitSecret], whatever the library's [split] does: it returns a result
    exactly when the secret is non-empty and [2 <= threshold <= totalShares
    <= 255], the library called as [split(secret, totalShares, threshold)]
    returns the shares, and the result records [threshold] and
    [totalShares]; it fails with [SplitFailed m] exactly when the
    parameters are valid and [split] throws [m]. *)
Theorem splitSecret_spec split secret threshold totalShares :
  (forall r, splitSecret split secret threshold totalShares = ROk r <->
     (secret <> [] /\ MIN_THRESHOLD <= threshold <= totalShares /\ totalShares <= MAX_SHARES) /\
     split secret totalShares threshold = Done (shares r) /\
     sr_threshold r = threshold /\ sr_totalShares r = totalShares) /\
  (forall m, splitSecret split secret threshold totalShares = RErr (SplitFailed m) <->
     (secret <> [] /\ MIN_THRESHOLD <= threshold <= totalShares /\ totalShares <= MAX_SHARES) /\
     split secret totalShares threshold = Thrown m).
Proof.
  unfold splitSecret.
  destruct (validateSplitParams secret threshold totalShares) as [e|] eqn:Ev.
  - assert (Hnv : ~ (secret <> [] /\ MIN_THRESHOLD <= threshold <= totalShares /\
                     totalShares <= MAX_SHARES))
      by (rewrite <- validateSplitParams_none; congruence).
    pose proof (validateSplitParams_invalid _ _ _ _ Ev) as Hi.
    split; [intros r; split; [discriminate|intros (Hv & _); contradiction]|].
    intros m; split; [intros H; injection H as ->; discriminate Hi|].
    intros (Hv & _); contradiction.
  - pose proof (proj1 (validateSplitParams_none _ _ _) Ev) as Hv.
    destruct (split secret totalShares threshold) as [shs|m0] eqn:Es.
    + split; [intros r; split|intros m; split; [discriminate|intros (_ & H); discriminate H]].
      * intros H. injection H as <-. simpl. auto.
      * intros (_ & Hs & Ht & Hn). destruct r as [shs' k n]; simpl in *.
        injection Hs as ->. subst. reflexivity.
    + split; [intros r; split; [discriminate|intros (_ & H & _); discriminate H]|].
      intros m; split; [intros H; injection H as <-; auto|].
      intros (_ & H). injection H as ->. reflexivity.
Qed.

(** [getShareIndex] returns [i] exactly for a share of at least two bytes
    whose first byte is [i], in [1..255]; on any other share it throws
    "Invalid share format". *)
Theorem getShareIndex_spec share :
  (forall i, getShareIndex share = Done i <->
     exists b t, share = b :: t /\ t <> [] /\ byte_val b = i /\ 1 <= i <= MAX_SHARES) /\
  (forall m, getShareIndex share = Thrown m <->
     isValidShare share = false /\ m = "Invalid share format"%string).
Proof.
  unfold getShareIndex. destruct share as [|b [|c t]].
  - split; intros x; split.
    + discriminate.
    + intros (b & t & H & _). discriminate H.
    + intros H. injection H as <-. auto.
    + intros (_ & ->). reflexivity.
  - split; intros x; split.
    + discriminate.
    + intros (b' & t & H & Ht & _). injection H as _ <-. contradiction.
    + intros H. injection H as <-. auto.
    + intros (_ & ->). reflexivity.
  - unfold isValidShare.
    destruct (Z.ltb_spec (byte_val b) 1) as [Hl1|Hl1], (Z.ltb_spec MAX_SHARES (byte_val b)) as [Hl2|Hl2]; simpl.
    4: { split; intros x; split.
         - intros H. injection H as <-. exists b, (c :: t). repeat split; try lia. discriminate.
         - intros (b' & t' & H & _ & <- & _). injection H as -> _. reflexivity.
         - discriminate.
         - intros (H & _). discriminate H. }
    all: split; intros x; split;
      [discriminate
      |intros (b' & t' & H & _ & Hb & Hr); injection H as -> _; lia
      |intros H; injection H as <-; auto
      |intros (_ & ->); reflexivity].
Qed.

End ShamirExtras.

Module OrchestratorExtras.
Import ShamirService Orchestrator OrchestratorInvariants OrchestratorProofs
       OrchestratorScenarios OrchestratorClaims ShamirExtras.

Lemma replace_first_in s l l' x :
  replace_first s l = Some l' -> In x l' -> x = s \/ In x l.
Proof.
  revert l'. induction l as [|y l IH]; simpl; intros l' H Hx; [discriminate|].
  destruct (String.eqb (id y) (id s)).
  - injection H as <-. destruct Hx as [<-|Hx]; auto.
  - destruct (replace_first s l) as [l''|] eqn:E; simpl in H; [|discriminate].
    injection H as <-. destruct Hx as [<-|Hx]; auto.
    destruct (IH l'' eq_refl Hx); auto.
Qed.

Lemma saveSession_in s st x :
  In x (sessions (saveSession s st)) -> x = s \/ In x (sessions st).
Proof.
  unfold saveSession; simpl. destruct (replace_first s (sessions st)) as [l'|] eqn:E.
  - apply (replace_first_in _ _ _ _ E).
  - rewrite in_app_iff. intros [H|[<-|[]]]; auto.
Qed.

Lemma getSession_in sid st s : getSession sid st = Some s -> In s (sessions st).
Proof. unfold getSession. intros H. now apply find_some in H as [H _]. Qed.

Lemma NoDup_snoc {A} (l : list A) x : NoDup l -> ~ In x l -> NoDup (l ++ [x]).
Proof.
  induction l as [|y l IH]; simpl; intros Hn Hx.
  - constructor; [tauto|constructor].
  - inversion Hn; subst. constructor.
    + rewrite in_app_iff. simpl. intuition.
    + apply IH; auto.
Qed.

Lemma existsb_eqb_false k l : existsb (String.eqb k) l = false -> ~ In k l.
Proof.
  intros H Hin.
  assert (Ht : existsb (String.eqb k) l = true)
    by (apply existsb_exists; exists k; split; [exact Hin|apply String.eqb_refl]).
  congruence.
Qed.

Lemma SInv_save st st1 e s :
  SInv st -> In e (sessions st) -> sessions st1 = sessions st ->
  executeAfter s = executeAfter e -> initiatedAt s = initiatedAt e ->
  userAddress s = userAddress e -> newOwnerAddress s = newOwnerAddress e ->
  NoDup (collectedShares s) ->
  SInv (saveSession s st1).
Proof.
  intros HS He Hs1 H1 H2 H3 H4 H5 x Hx. apply saveSession_in in Hx. rewrite Hs1 in Hx.
  destruct Hx as [->|Hx]; [|exact (HS x Hx)].
  destruct (HS e He) as (A & B & C & D & _). rewrite H1, H2, H3, H4. auto.
Qed.

Lemma SInv_step gm now combine decodeShare o st :
  SInv st -> SInv (ostep gm now combine decodeShare o st).
Proof.
  intros HS. destruct o as [nid u n|sid g enc|sid|sid|sid c]; simpl.
  - destruct (initiateRecovery gm now nid u n st) as [[st' s]|] eqn:E; [|exact HS].
    unfold initiateRecovery in E.
    destruct (_ || _); [discriminate|].
    destruct (String.eqb (toLowerCase u) (toLowerCase n)) eqn:Eq; [discriminate|].
    destruct (negb _); [discriminate|].
    destruct (getRecoveryConfig gm u) as [th|]; [|discriminate].
    destruct (getActiveSession u st); [discriminate|].
    injection E as <- <-. intros x Hx. apply saveSession_in in Hx.
    destruct Hx as [->|Hx]; [|exact (HS x Hx)]. simpl.
    rewrite !toLowerCase_idem. split; [reflexivity|]. split; [reflexivity|].
    split; [reflexivity|].
    split; [intros Heq; rewrite Heq, String.eqb_refl in Eq; discriminate|constructor].
  - unfold submitShare. destruct (getSession sid st) as [e|] eqn:Eg; [|exact HS].
    destruct (is_terminal (status e)); [exact HS|].
    destruct (find _ _) as [gi|]; [|exact HS].
    destruct (existsb _ _) eqn:Ex; [exact HS|].
    apply (SInv_save st _ e); try reflexivity; auto.
    + exact (getSession_in _ _ _ Eg).
    + simpl. apply NoDup_snoc; [apply (HS e (getSession_in _ _ _ Eg))|].
      now apply existsb_eqb_false.
  - unfold checkReadiness. destruct (getSession sid st) as [e|] eqn:Eg; [|exact HS].
    destruct (_ && _ && _); simpl; [|exact HS].
    apply (SInv_save st _ e); try reflexivity; auto.
    + exact (getSession_in _ _ _ Eg).
    + apply (HS e (getSession_in _ _ _ Eg)).
  - unfold executeRecovery. destruct (getSession sid st) as [e|] eqn:Eg; [|exact HS].
    destruct (_ <? _); [exact HS|]. destruct (now <? _); [exact HS|].
    destruct (combineShares _ _) as [secret|]; [|exact HS]. simpl.
    apply (SInv_save st _ e); try reflexivity; auto.
    + exact (getSession_in _ _ _ Eg).
    + apply (HS e (getSession_in _ _ _ Eg)).
  - unfold cancelRecovery. destruct (getSession sid st) as [e|] eqn:Eg; [|exact HS].
    destruct (status_eqb (status e) executed); [exact HS|].
    destruct (status_eqb (status e) cancelled); [exact HS|].
    destruct (_ && _); [exact HS|].
    apply (SInv_save st _ e); try reflexivity; auto.
    + exact (getSession_in _ _ _ Eg).
    + apply (HS e (getSession_in _ _ _ Eg)).
Qed.

Lemma SInv_reachable st : oreachable st -> SInv st.
Proof. induction 1; [intros s []|now apply SInv_step]. Qed.

Lemma set_prop_find_same k v l :
  find (fun kv => String.eqb (fst kv) k) (set_prop k v l) = Some (k, v).
Proof.
  induction l as [|[k' v'] l IH]; simpl; [now rewrite String.eqb_refl|].
  destruct (String.eqb k' k) eqn:E; simpl; [now rewrite String.eqb_refl|].
  rewrite E. exact IH.
Qed.

Lemma set_prop_find_other k v l k' :
  k' <> k ->
  find (fun kv => String.eqb (fst kv) k') (set_prop k v l) =
  find (fun kv => String.eqb (fst kv) k') l.
Proof.
  intros Hne. assert (Hk : String.eqb k k' = false) by (apply String.eqb_neq; congruence).
  induction l as [|[a b] l IH]; simpl; [now rewrite Hk|].
  destruct (String.eqb_spec a k) as [->|]; simpl; [now rewrite Hk|].
  destruct (String.eqb a k'); [reflexivity|exact IH].
Qed.

(** *** Properties *)

(** In every store the orchestrator can reach, each stored session has
    [executeAfter = initiatedAt + RECOVERY_DELAY_MS], lower-cased owner and
    new-owner addresses that differ, and no guardian id twice among its
    collected shares. *)
Theorem sessions_well_formed st s :
  oreachable st -> In s (sessions st) ->
  executeAfter s = initiatedAt s + RECOVERY_DELAY_MS /\
  toLowerCase (userAddress s) = userAddress s /\
  toLowerCase (newOwnerAddress s) = newOwnerAddress s /\
  userAddress s <> newOwnerAddress s /\
  NoDup (collectedShares s).
Proof. intros Hr. exact (SInv_reachable _ Hr s). Qed.

Lemma sessions_well_formed_witness :
  oreachable o_s3 /\
  In (mkSession "sid" "0xowner" "0xnew" ready 2 ["g1"%string; "g2"%string] 0
        RECOVERY_DELAY_MS None None) (sessions o_s3) /\
  NoDup ["g1"%string; "g2"%string].
Proof.
  assert (Hr : oreachable o_s3)
    by (unfold o_s3, o_s2, o_s1, o_step; repeat apply oreach_step; apply oreach_init).
  assert (Hin : In (mkSession "sid" "0xowner" "0xnew" ready 2 ["g1"%string; "g2"%string] 0
                   RECOVERY_DELAY_MS None None) (sessions o_s3))
    by (vm_compute; left; reflexivity).
  split; [exact Hr|]. split; [exact Hin|].
  exact (proj2 (proj2 (proj2 (proj2 (sessions_well_formed _ _ Hr Hin))))).
Defined.

(** In every reachable store, for a session initiated no later than [now]:
    [getTimeRemaining] lies between 0 and [RECOVERY_DELAY_MS] and is 0
    exactly when the time-lock has expired.  When [executeRecovery] finds
    enough shares but its first clock read [now] is before [executeAfter],
    it reports [hours], the time left at its second clock read
    [nowRemaining] rounded up to whole hours: between 1 and 168 when that
    read is still before [executeAfter], and 0 or less when the clock has
    reached [executeAfter] in between. *)
Theorem time_remaining_bounds now nowRemaining nowExecuted combine decodeShare sid st s :
  oreachable st -> getSession sid st = Some s -> initiatedAt s <= now ->
  0 <= getTimeRemaining now sid st <= RECOVERY_DELAY_MS /\
  (getTimeRemaining now sid st = 0 <-> executeAfter s <= now) /\
  (threshold s <= Z.of_nat (List.length (collectedShares s)) -> now < executeAfter s ->
   exists hours,
     fst (executeRecovery now combine decodeShare nowRemaining nowExecuted sid st) =
       RecoveryFailure (TimeLockNotExpired hours) /\
     (hours - 1) * 3600000 < executeAfter s - nowRemaining <= hours * 3600000 /\
     (initiatedAt s <= nowRemaining < executeAfter s -> 1 <= hours <= 168) /\
     (executeAfter s <= nowRemaining -> hours <= 0)).
Proof.
  intros Hr Hg Hn.
  destruct (SInv_reachable _ Hr s (getSession_in _ _ _ Hg)) as (He & _).
  unfold getTimeRemaining. rewrite Hg. unfold RECOVERY_DELAY_MS in *.
  split; [lia|]. split; [lia|].
  intros Ht Hl. unfold executeRecovery. rewrite Hg.
  destruct (Z.ltb_spec (Z.of_nat (List.length (collectedShares s))) (threshold s)); [lia|].
  destruct (Z.ltb_spec now (executeAfter s)); [|lia].
  exists ((executeAfter s - nowRemaining + 3599999) / 3600000). split; [reflexivity|].
  pose proof (Z.div_mod (executeAfter s - nowRemaining + 3599999) 3600000 ltac:(lia)).
  pose proof (Z.mod_pos_bound (executeAfter s - nowRemaining + 3599999) 3600000 ltac:(lia)).
  split; [lia|]. split; lia.
Qed.

Lemma time_remaining_bounds_witness :
  exists hours,
    fst (executeRecovery (RECOVERY_DELAY_MS - 1) mock_combine decode_demo
           RECOVERY_DELAY_MS RECOVERY_DELAY_MS "sid" o_s4) =
      RecoveryFailure (TimeLockNotExpired hours) /\
    hours <= 0.
Proof.
  destruct (proj2 (proj2 (time_remaining_bounds (RECOVERY_DELAY_MS - 1) RECOVERY_DELAY_MS
           RECOVERY_DELAY_MS mock_combine decode_demo "sid" o_s4
           (mkSession "sid" "0xowner" "0xnew" cancelled 2 ["g1"%string; "g2"%string] 0
              RECOVERY_DELAY_MS None (Some 3))
           oreachable_o_s4 ltac:(vm_compute; reflexivity) ltac:(cbn; lia)))
           ltac:(cbn; lia) ltac:(cbn; lia)) as (hours & H1 & _ & _ & H4).
  exists hours. split; [exact H1|]. apply H4. cbn. lia.
Defined.

(** [executeRecovery] leaves the store unchanged whenever it fails.  When
    it succeeds with [secret], the session exists, has at least [threshold]
    collected shares and an expired time-lock at the first clock read
    [now], the stored shares number at least two and are all well formed,
    the library's [combine] returned [secret] on them, and the session is
    stored as [executed] with [executedAt] the third clock read
    [nowExecuted]. *)
Theorem executeRecovery_outcome now combine decodeShare nowRemaining nowExecuted sid st :
  (forall e, fst (executeRecovery now combine decodeShare nowRemaining nowExecuted sid st)
               = RecoveryFailure e ->
     snd (executeRecovery now combine decodeShare nowRemaining nowExecuted sid st) = st) /\
  (forall secret,
     fst (executeRecovery now combine decodeShare nowRemaining nowExecuted sid st)
       = RecoverySuccess secret ->
     exists s, getSession sid st = Some s /\
       threshold s <= Z.of_nat (List.length (collectedShares s)) /\
       executeAfter s <= now /\
       (2 <= List.length (getSubmittedShares decodeShare sid st))%nat /\
       Forall (fun sh => isValidShare sh = true) (getSubmittedShares decodeShare sid st) /\
       combine (getSubmittedShares decodeShare sid st) = Done secret /\
       getSession sid (snd (executeRecovery now combine decodeShare nowRemaining nowExecuted sid st)) =
         Some (mkSession (id s) (userAddress s) (newOwnerAddress s) executed (threshold s)
                 (collectedShares s) (initiatedAt s) (executeAfter s) (Some nowExecuted)
                 (cancelledAt s))).
Proof.
  unfold executeRecovery. destruct (getSession sid st) as [s|] eqn:Eg.
  2: { split; [reflexivity|intros secret Hs; discriminate Hs]. }
  destruct (Z.ltb_spec (Z.of_nat (List.length (collectedShares s))) (threshold s)).
  { split; [reflexivity|intros secret Hs; discriminate Hs]. }
  destruct (Z.ltb_spec now (executeAfter s)).
  { split; [reflexivity|intros secret Hs; discriminate Hs]. }
  destruct (combineShares combine (getSubmittedShares decodeShare sid st)) as [sec|e] eqn:Ec.
  2: { split; [reflexivity|intros secret Hs; discriminate Hs]. }
  split; [intros e Hs; discriminate Hs|].
  intros secret Hs. injection Hs as <-. exists s.
  destruct (combineShares_ok_inv _ _ _ Ec) as (Hl & Hv & Hc).
  split; [reflexivity|]. split; [lia|]. split; [lia|].
  split; [exact Hl|]. split; [exact Hv|]. split; [exact Hc|].
  simpl. apply (getSession_save sid s); [exact Eg|exact (getSession_id _ _ _ Eg)].
Qed.

Lemma executeRecovery_outcome_witness :
  fst (executeRecovery RECOVERY_DELAY_MS mock_combine decode_demo 0 (RECOVERY_DELAY_MS + 5)
         "sid" o_s3) = RecoverySuccess [Byte.x07] /\
  exists s, getSession "sid" o_s3 = Some s /\
    executeAfter s <= RECOVERY_DELAY_MS /\
    getSession "sid" (snd (executeRecovery RECOVERY_DELAY_MS mock_combine decode_demo 0
                             (RECOVERY_DELAY_MS + 5) "sid" o_s3)) =
      Some (mkSession (id s) (userAddress s) (newOwnerAddress s) executed (threshold s)
              (collectedShares s) (initiatedAt s) (executeAfter s) (Some (RECOVERY_DELAY_MS + 5))
              (cancelledAt s)).
Proof.
  assert (H : fst (executeRecovery RECOVERY_DELAY_MS mock_combine decode_demo 0
                     (RECOVERY_DELAY_MS + 5) "sid" o_s3) = RecoverySuccess [Byte.x07])
    by (vm_compute; reflexivity).
  split; [exact H|].
  destruct (proj2 (executeRecovery_outcome RECOVERY_DELAY_MS mock_combine decode_demo 0
                     (RECOVERY_DELAY_MS + 5) "sid" o_s3) _ H)
    as (s & Hg & _ & He & _ & _ & _ & Hs).
  exists s. split; [exact Hg|]. split; [exact He|exact Hs].
Defined.

(** On a session that is executed or cancelled, [submitShare] throws
    "Recovery session is executed" / "... cancelled", [cancelRecovery] throws
    "Cannot cancel executed recovery" / "Recovery already cancelled", and
    [checkReadiness] returns [false] and leaves the store unchanged. *)
Theorem terminal_session_rejected gm now sid st s :
  getSession sid st = Some s -> is_terminal (status s) = true ->
  (forall g e, submitShare gm sid g e st =
     OThrow ("Recovery session is " ++ status_string (status s))) /\
  (forall c, cancelRecovery gm now sid c st =
     OThrow (if status_eqb (status s) executed then "Cannot cancel executed recovery"
             else "Recovery already cancelled")) /\
  checkReadiness now sid st = (false, st).
Proof.
  intros Hg Ht. unfold submitShare, cancelRecovery, checkReadiness. rewrite Hg, Ht.
  split; [reflexivity|].
  destruct (status s); try discriminate Ht; simpl; rewrite ?andb_false_r; auto.
Qed.

Lemma terminal_session_rejected_witness :
  submitShare gm_demo "sid" "0xa1" "AQc=" o_s4 = OThrow "Recovery session is cancelled" /\
  cancelRecovery gm_demo 4 "sid" "0xowner" o_s4 = OThrow "Recovery already cancelled" /\
  checkReadiness RECOVERY_DELAY_MS "sid" o_s4 = (false, o_s4).
Proof.
  destruct (terminal_session_rejected gm_demo RECOVERY_DELAY_MS "sid" o_s4
              (mkSession "sid" "0xowner" "0xnew" cancelled 2 ["g1"%string; "g2"%string] 0
                 RECOVERY_DELAY_MS None (Some 3))
              ltac:(vm_compute; reflexivity) eq_refl) as (H1 & _ & H3).
  destruct (terminal_session_rejected gm_demo 4 "sid" o_s4
              (mkSession "sid" "0xowner" "0xnew" cancelled 2 ["g1"%string; "g2"%string] 0
                 RECOVERY_DELAY_MS None (Some 3))
              ltac:(vm_compute; reflexivity) eq_refl) as (_ & H2 & _).
  split; [exact (H1 "0xa1"%string "AQc="%string)|].
  split; [exact (H2 "0xowner"%string)|exact H3].
Defined.

(** A successful [submitShare] comes from an authorized guardian [g]
    (matched case-insensitively) of a session that is neither executed nor
    cancelled and has no share from [g] yet.  The session then lists [g]'s
    id once more at the end of its collected shares, becomes [ready] when
    the count reaches its threshold and [collecting] otherwise, and keeps
    every other field; the session's share map then maps [g]'s id to the
    submitted share, keeps its other entries, and no other session's map
    changes. *)
Theorem submitShare_effect gm sid gaddr enc st st' :
  submitShare gm sid gaddr enc st = OOk st' ->
  exists s g,
    getSession sid st = Some s /\ is_terminal (status s) = false /\
    In g (getGuardians gm (userAddress s)) /\
    toLowerCase (g_address g) = toLowerCase gaddr /\
    ~ In (g_id g) (collectedShares s) /\
    getSession sid st' =
      Some (mkSession (id s) (userAddress s) (newOwnerAddress s)
              (if threshold s <=? Z.of_nat (List.length (collectedShares s ++ [g_id g]))
               then ready else collecting)
              (threshold s) (collectedShares s ++ [g_id g]) (initiatedAt s) (executeAfter s)
              (executedAt s) (cancelledAt s)) /\
    find (fun kv => String.eqb (fst kv) (g_id g)) (submitted st' sid) = Some (g_id g, enc) /\
    (forall k, k <> g_id g ->
       find (fun kv => String.eqb (fst kv) k) (submitted st' sid) =
       find (fun kv => String.eqb (fst kv) k) (submitted st sid)) /\
    (forall sid', sid' <> sid -> submitted st' sid' = submitted st sid').
Proof.
  unfold submitShare. destruct (getSession sid st) as [s|] eqn:Eg; [|discriminate].
  destruct (is_terminal (status s)) eqn:Et; [discriminate|].
  destruct (find _ _) as [g|] eqn:Ef; [|discriminate].
  destruct (existsb _ _) eqn:Ex; [discriminate|].
  intros H. injection H as <-.
  apply find_some in Ef as [Hin Hm]. apply String.eqb_eq in Hm.
  exists s, g. split; [reflexivity|]. split; [exact Et|]. split; [exact Hin|].
  split; [exact Hm|]. split; [now apply existsb_eqb_false|].
  split; [apply (getSession_save sid s); [exact Eg|exact (getSession_id _ _ _ Eg)]|].
  unfold saveSession, storeSubmittedShare; simpl. rewrite String.eqb_refl.
  split; [apply set_prop_find_same|].
  split; [intros k Hk; now apply set_prop_find_other|].
  intros sid' Hs. apply String.eqb_neq in Hs. now rewrite Hs.
Qed.

Lemma submitShare_effect_witness :
  submitShare gm_demo "sid" "0xa1" "AQc=" o_s1 = OOk o_s2 /\
  exists s g,
    getSession "sid" o_s1 = Some s /\ is_terminal (status s) = false /\
    In g (getGuardians gm_demo (userAddress s)) /\
    toLowerCase (g_address g) = toLowerCase "0xa1" /\
    ~ In (g_id g) (collectedShares s) /\
    getSession "sid" o_s2 =
      Some (mkSession (id s) (userAddress s) (newOwnerAddress s)
              (if threshold s <=? Z.of_nat (List.length (collectedShares s ++ [g_id g]))
               then ready else collecting)
              (threshold s) (collectedShares s ++ [g_id g]) (initiatedAt s) (executeAfter s)
              (executedAt s) (cancelledAt s)) /\
    find (fun kv => String.eqb (fst kv) (g_id g)) (submitted o_s2 "sid") =
      Some (g_id g, "AQc="%string) /\
    (forall k, k <> g_id g ->
       find (fun kv => String.eqb (fst kv) k) (submitted o_s2 "sid") =
       find (fun kv => String.eqb (fst kv) k) (submitted o_s1 "sid")) /\
    (forall sid', sid' <> "sid"%string -> submitted o_s2 sid' = submitted o_s1 sid').
Proof.
  assert (H : submitShare gm_demo "sid" "0xa1" "AQc=" o_s1 = OOk o_s2) by reflexivity.
  split; [exact H|]. exact (submitShare_effect _ _ _ _ _ _ H).
Defined.

(** [checkReadiness] changes the store at most by turning a [ready] session
    with enough collected shares and an expired time-lock into
    [executable]; it returns [true] exactly when the session, as stored
    afterwards, is [executable]. *)
Theorem checkReadiness_effect now sid st :
  (snd (checkReadiness now sid st) = st \/
   exists s, getSession sid st = Some s /\ status s = ready /\
     threshold s <= Z.of_nat (List.length (collectedShares s)) /\ executeAfter s <= now /\
     snd (checkReadiness now sid st) = saveSession (with_status s executable) st) /\
  (fst (checkReadiness now sid st) = true <->
   option_map status (getSession sid (snd (checkReadiness now sid st))) = Some executable).
Proof.
  unfold checkReadiness. destruct (getSession sid st) as [s|] eqn:Eg.
  2: { simpl. split; [left; reflexivity|]. rewrite Eg. split; discriminate. }
  destruct (threshold s <=? _) eqn:E1, (executeAfter s <=? now) eqn:E2,
           (status_eqb (status s) ready) eqn:E3; simpl;
    try (split; [left; reflexivity|]; rewrite Eg; simpl;
         destruct (status s); simpl; split; congruence).
  apply Z.leb_le in E1. apply Z.leb_le in E2.
  split.
  - right. exists s. split; [reflexivity|].
    split; [destruct (status s); try discriminate E3; reflexivity|]. auto.
  - rewrite (getSession_save sid s (with_status s executable) st Eg (getSession_id _ _ _ Eg)).
    simpl. split; auto.
Qed.

End OrchestratorExtras.
